(** * The rule organizer of gitignore-helper

    A shallow embedding of the body of [cleanupGitignoreCommand]
    (the command registered as [extension.cleanupGitignore]): the
    text transformation applied to the contents of a [.gitignore]
    buffer, in its two modes "Flat Sort" and "Smart Sort".

    JavaScript strings are sequences of UTF-16 code units; they are
    modelled as lists of [N].  The library functions the command
    relies on ([String.prototype.split] with the pattern [/\r?\n/],
    [trim], [startsWith], [Array.prototype.join], the default
    [Array.prototype.sort], [Set]) are modelled after ECMAScript. *)

From Stdlib Require Import Ascii String.
From stdpp Require Import base list sorting gmap.

Local Open Scope N_scope.

(** ** JavaScript strings *)

Abbreviation jsstring := (list N).

Definition LF : N := 10.
Definition CR : N := 13.
Definition HASH : N := 35.

(** [WhiteSpace] and [LineTerminator] code points of ECMAScript, the
    characters removed by [String.prototype.trim]. *)
Definition is_ws (c : N) : bool :=
  ((9 <=? c) && (c <=? 13))        (* TAB, LF, VT, FF, CR *)
  || (c =? 32)                     (* SPACE *)
  || (c =? 160)                    (* NO-BREAK SPACE *)
  || (c =? 5760)                   (* U+1680 *)
  || ((8192 <=? c) && (c <=? 8202))  (* U+2000 .. U+200A *)
  || (c =? 8232) || (c =? 8233)    (* U+2028, U+2029 *)
  || (c =? 8239)                   (* U+202F *)
  || (c =? 8287)                   (* U+205F *)
  || (c =? 12288)                  (* U+3000 *)
  || (c =? 65279).                 (* U+FEFF *)

Fixpoint trimStart (s : jsstring) : jsstring :=
  match s with
  | [] => []
  | c :: r => if is_ws c then trimStart r else s
  end.

Definition trimEnd (s : jsstring) : jsstring :=
  rev (trimStart (rev s)).

(** [s.trim()] *)
Definition trim (s : jsstring) : jsstring := trimEnd (trimStart s).

(** [s.startsWith('#')] *)
Definition startsWith_hash (s : jsstring) : bool :=
  match s with
  | c :: _ => c =? HASH
  | [] => false
  end.

(** Truthiness of a string: the empty string is the only falsy one. *)
Definition truthy (s : jsstring) : bool :=
  match s with [] => false | _ :: _ => true end.

Definition cons_hd (c : N) (ls : list jsstring) : list jsstring :=
  match ls with
  | l :: ls' => (c :: l) :: ls'
  | [] => [[c]]
  end.

(** [content.split(/\r?\n/)]: the text is cut at every line feed, and
    a carriage return directly in front of the line feed belongs to
    the separator.  The result always has at least one element. *)
Fixpoint split_lines (s : jsstring) : list jsstring :=
  match s with
  | [] => [[]]
  | c :: r =>
      if c =? LF then [] :: split_lines r
      else
        match r with
        | c' :: r' =>
            if (c =? CR) && (c' =? LF) then [] :: split_lines r'
            else cons_hd c (split_lines r)
        | [] => [[c]]
        end
  end.

(** [arr.join(sep)] *)
Fixpoint join (sep : jsstring) (ls : list jsstring) : jsstring :=
  match ls with
  | [] => []
  | [l] => l
  | l :: ls' => l ++ sep ++ join sep ls'
  end.

(** The comparison [x < y] on strings (ECMAScript [IsLessThan]):
    lexicographic on code units, a proper prefix being smaller. *)
Fixpoint str_ltb (s t : jsstring) : bool :=
  match s, t with
  | _, [] => false
  | [], _ :: _ => true
  | a :: s', b :: t' => (a <? b) || ((a =? b) && str_ltb s' t')
  end.

(** The order used by [sort()] without a comparison function:
    [x] may stand before [y] unless [y < x]. *)
Definition str_le (x y : jsstring) : Prop := str_ltb y x = false.

Global Instance str_le_dec : RelDecision str_le.
Proof. intros x y. unfold str_le. apply _. Defined.

(** [arr.sort()].  The result of the default sort is the sorted
    permutation of its input, which is unique for a total order (see
    [js_sort_unique] below); merge sort computes it. *)
Definition js_sort (ls : list jsstring) : list jsstring :=
  merge_sort str_le ls.

(** [Array.from(new Set(arr))]: a [Set] iterates in insertion order,
    so every element is kept at its first occurrence. *)
Definition set_add (acc : list jsstring) (x : jsstring) : list jsstring :=
  if bool_decide (x ∈ acc) then acc else acc ++ [x].

Definition array_from_set (ls : list jsstring) : list jsstring :=
  fold_left set_add ls [].

(** ** Flat Sort *)

Record FlatState := mkFlat {
  uniqueLines : gset jsstring;
  cleanedLines : list jsstring
}.

Definition flat_step (st : FlatState) (line : jsstring) : FlatState :=
  let trimmed := trim line in
  if truthy trimmed && negb (startsWith_hash trimmed)
     && negb (bool_decide (trimmed ∈ uniqueLines st))
  then mkFlat ({[trimmed]} ∪ uniqueLines st) (cleanedLines st ++ [trimmed])
  else st.

Definition flat_loop (lines : list jsstring) : FlatState :=
  fold_left flat_step lines (mkFlat ∅ []).

Definition organize_flat (content : jsstring) : jsstring :=
  let lines := split_lines content in
  let cleaned := cleanedLines (flat_loop lines) in
  join [LF] (js_sort cleaned) ++ [LF].

(** ** Smart Sort (section-aware) *)

Record RuleSection := mkSection {
  comments : list jsstring;
  rules : list jsstring
}.

Definition empty_section : RuleSection := mkSection [] [].

(** [currentSection.comments.length > 0 || currentSection.rules.length > 0] *)
Definition has_content (s : RuleSection) : bool :=
  (0 <? length (comments s))%nat || (0 <? length (rules s))%nat.

Record ParseState := mkParse {
  sections : list RuleSection;
  currentSection : RuleSection
}.

Definition flush (st : ParseState) : ParseState :=
  mkParse (sections st ++ [currentSection st]) empty_section.

(** One iteration of the loop over the lines. *)
Definition smart_step (st : ParseState) (line : jsstring) : ParseState :=
  let trimmed := trim line in
  if negb (truthy trimmed) then
    if has_content (currentSection st) then flush st else st
  else if startsWith_hash trimmed then
    let st' :=
      if (0 <? length (rules (currentSection st)))%nat
      then flush st else st in
    mkParse (sections st')
            (mkSection (comments (currentSection st') ++ [line])
                       (rules (currentSection st')))
  else
    mkParse (sections st)
            (mkSection (comments (currentSection st))
                       (rules (currentSection st) ++ [trimmed])).

Definition smart_loop (lines : list jsstring) : ParseState :=
  fold_left smart_step lines (mkParse [] empty_section).

(** The loop followed by "push last section". *)
Definition parse_sections (lines : list jsstring) : list RuleSection :=
  let st := smart_loop lines in
  if has_content (currentSection st)
  then sections st ++ [currentSection st]
  else sections st.

(** The function mapped over the sections. *)
Definition render_section (section : RuleSection) : jsstring :=
  let uniqueRules := js_sort (array_from_set (rules section)) in
  let header :=
    if (0 <? length (comments section))%nat
    then join [LF] (comments section) ++ [LF] else [] in
  let body := join [LF] uniqueRules in
  if negb (truthy header) && negb (truthy body) then []
  else trim (header ++ body).

Definition organize_smart (content : jsstring) : jsstring :=
  let lines := split_lines content in
  let rendered := map render_section (parse_sections lines) in
  join [LF; LF] (filter (λ s, (0 < length s)%nat) rendered) ++ [LF].

(** ** The organizer *)

Inductive SortMode := Smart | Flat.

(** The command takes the Flat branch when the label of the chosen
    item starts with "Flat Sort" and the section-aware branch
    otherwise. *)
Definition organize (content : jsstring) (mode : SortMode) : jsstring :=
  match mode with
  | Flat => organize_flat content
  | Smart => organize_smart content
  end.

(** ** Writing test inputs *)

(** Reads an ASCII literal, with the escapes [\n] and [\r]. *)
Fixpoint js (s : string) : jsstring :=
  match s with
  | EmptyString => []
  | String "\" (String "n" r) => LF :: js r
  | String "\" (String "r" r) => CR :: js r
  | String c r => N_of_ascii c :: js r
  end.

(** * The commands that edit single rules

    The commands [extension.addToGitignore],
    [extension.addToGlobalGitignore], [extension.removeFromGitignore]
    and the "Remove Rule" action of [extension.checkIgnore] read the
    ignore file, decide, and write it back.  A file is modelled by
    the text [readFileSync(path, 'utf8')] returns for it; each
    function below takes that text and returns [None] when the
    command leaves the file alone and [Some] of the text of the file
    after the write otherwise. *)

Definition SLASH : N := 47.






(** The test of the filter of [extension.removeFromGitignore]: the
    trimmed line is none of the four spellings of the path. *)
Definition keeps_line (relativePath line : jsstring) : bool :=
  let trimmed := trim line in
  negb (bool_decide (trimmed = relativePath))
  && negb (bool_decide (trimmed = SLASH :: relativePath))
  && negb (bool_decide (trimmed = relativePath ++ [SLASH]))
  && negb (bool_decide (trimmed = SLASH :: relativePath ++ [SLASH])).

Definition removeFromGitignore (content relativePath : jsstring)
  : option jsstring :=
  let lines := split_lines content in
  let newLines := filter (λ line, keeps_line relativePath line) lines in
  if (length newLines =? length lines)%nat then None
  else Some (join [LF] newLines).

(** "Remove Rule": [index] is [parseInt(lineNum) - 1], [None] when
    that is not a number. *)
Definition removeRuleAt (content : jsstring) (index : option Z)
  : option jsstring :=
  let lines := split_lines content in
  match index with
  | Some i =>
      if ((0 <=? i) && (i <? Z.of_nat (length lines)))%Z
      then Some (join [LF] (delete (Z.to_nat i) lines))
      else None
  | None => None
  end.

(** * The query of the completion provider

    [provideCompletionItems] (in the completion provider and in the
    custom editor) turns the text in front of the cursor into the
    directory to list and the prefix typed so far.  The directory
    part is joined with [path.sep], which is a parameter here; the
    result is [dirPart] ([None] when the text names no directory)
    and [prefix]. *)

Definition BANG : N := 33.

(** [s.startsWith(c)] for a one-character string [c] *)
Definition startsWith_char (c : N) (s : jsstring) : bool :=
  match s with
  | d :: _ => d =? c
  | [] => false
  end.

(** [s.substring(1)] *)
Definition substring1 (s : jsstring) : jsstring := tail s.

(** [s.split(c)] for a one-character string [c] *)
Fixpoint split_on (c : N) (s : jsstring) : list jsstring :=
  match s with
  | [] => [[]]
  | d :: r => if d =? c then [] :: split_on c r else cons_hd d (split_on c r)
  end.

(** [s.includes(c)] for a one-character string [c] *)
Definition includes_char (c : N) (s : jsstring) : bool :=
  existsb (λ d, d =? c) s.

Definition completion_query (sep lineText : jsstring)
  : option jsstring * jsstring :=
  let cleanLine := trimStart lineText in
  let cleanLine :=
    if startsWith_char BANG cleanLine then substring1 cleanLine else cleanLine in
  let cleanLine :=
    if startsWith_char SLASH cleanLine then substring1 cleanLine else cleanLine in
  if includes_char SLASH cleanLine then
    let parts := split_on SLASH cleanLine in
    (Some (join sep (removelast parts)), List.last parts [])
  else (None, cleanLine).

(** * Reading the answer of [git check-ignore -v]

    [extension.checkIgnore] reads the trimmed output of git, of the
    form [source:linenum:pattern<TAB>path], first by splitting at
    colons and then with a regular expression: at the start one or
    more characters (group 1), a colon, one or more digits (group 2),
    a colon, any characters (group 3), whitespace, any characters,
    the end.  Its groups replace the first reading when it
    matches. *)

Definition COLON : N := 58.
Definition TAB : N := 9.
Definition SPACE : N := 32.

(** The characters [.] does not match. *)
Definition is_line_terminator (c : N) : bool :=
  (c =? 10) || (c =? 13) || (c =? 8232) || (c =? 8233).

Definition dot (c : N) : bool := negb (is_line_terminator c).

(** [\d] *)
Definition is_digit (c : N) : bool := (48 <=? c) && (c <=? 57).

Fixpoint take_while (f : N → bool) (s : jsstring) : jsstring :=
  match s with
  | c :: r => if f c then c :: take_while f r else []
  | [] => []
  end.

(** The end of the expression: some whitespace, then characters
    other than line terminators up to the end of the text. *)
Fixpoint ws_dots (s : jsstring) : bool :=
  match s with
  | [] => false
  | c :: r => is_ws c && (forallb dot r || ws_dots r)
  end.

(** Group 3 and the end of the expression, where the group already
    holds [pre]: a greedy group is first tried one character longer
    and given back otherwise. *)
Fixpoint tail_scan (pre s : jsstring) : option jsstring :=
  match s with
  | [] => None
  | c :: r =>
      match (if dot c then tail_scan (pre ++ [c]) r else None) with
      | Some g => Some g
      | None => if ws_dots (c :: r) then Some pre else None
      end
  end.

(** The expression behind group 1, at the front of [s]: the digits
    are the longest run, as a shorter run is not followed by a
    colon. *)
Definition colon_digits_colon (s : jsstring) : option (jsstring * jsstring) :=
  match s with
  | c :: r =>
      if c =? COLON then
        let ds := take_while is_digit r in
        if (0 <? length ds)%nat then
          match drop (length ds) r with
          | c' :: r' =>
              if c' =? COLON then
                match tail_scan [] r' with
                | Some g => Some (ds, g)
                | None => None
                end
              else None
          | [] => None
          end
        else None
      else None
  | [] => None
  end.

(** The whole expression where the first group already holds
    [pre]. *)
Fixpoint regex_scan (pre s : jsstring)
  : option (jsstring * jsstring * jsstring) :=
  match s with
  | [] => None
  | c :: r =>
      match (if dot c then regex_scan (pre ++ [c]) r else None) with
      | Some m => Some m
      | None =>
          match pre with
          | [] => None
          | _ :: _ =>
              match colon_digits_colon (c :: r) with
              | Some (ds, g) => Some (pre, ds, g)
              | None => None
              end
          end
      end
  end.

(** [output.match] with the expression: the three groups. *)
Definition check_ignore_match (output : jsstring)
  : option (jsstring * jsstring * jsstring) :=
  regex_scan [] output.

(** [source], [lineNum] ([None] for [undefined]) and [pattern]. *)
Definition parse_check_ignore (output : jsstring)
  : jsstring * option jsstring * jsstring :=
  let parts := split_on COLON output in
  let source := hd [] parts in
  let lineNum := parts !! 1%nat in
  let pattern :=
    hd [] (split_on SPACE (hd [] (split_on TAB (join [COLON] (drop 2 parts))))) in
  match check_ignore_match output with
  | Some (g1, g2, g3) => (g1, Some g2, trim g3)
  | None => (source, lineNum, pattern)
  end.

(** [parseInt(s)] without radix, [None] for [NaN].  The value is
    the exact integer; the number JavaScript computes is that
    integer rounded to a double, which compares in the same way
    with every integer below 2^53. *)
Definition digit_value (radix : Z) (c : N) : option Z :=
  let v :=
    if (48 <=? c) && (c <=? 57) then Some (Z.of_N c - 48)%Z
    else if (97 <=? c) && (c <=? 122) then Some (Z.of_N c - 87)%Z
    else if (65 <=? c) && (c <=? 90) then Some (Z.of_N c - 55)%Z
    else None in
  match v with
  | Some d => if (d <? radix)%Z then Some d else None
  | None => None
  end.

Fixpoint digits_value (radix : Z) (acc : option Z) (s : jsstring) : option Z :=
  match s with
  | [] => acc
  | c :: r =>
      match digit_value radix c with
      | Some d => digits_value radix (Some (default 0%Z acc * radix + d)%Z) r
      | None => acc
      end
  end.

Definition parseInt (string : option jsstring) : option Z :=
  let inputString := default [117; 110; 100; 101; 102; 105; 110; 101; 100] string in
  let str := trimStart inputString in
  let sign := if startsWith_char 45 str then (-1)%Z else 1%Z in
  let str :=
    if startsWith_char 45 str || startsWith_char 43 str then tail str else str in
  let radix_rest :=
    match str with
    | 48 :: x :: str' =>
        if (x =? 120) || (x =? 88) then (16%Z, str') else (10%Z, str)
    | _ => (10%Z, str)
    end in
  match digits_value radix_rest.1 None radix_rest.2 with
  | Some n => Some (sign * n)%Z
  | None => None
  end.

(** The "Remove Rule" action on the file [source] names:
    [index = parseInt(lineNum) - 1]. *)
Definition checkIgnore_removeRule (output content : jsstring)
  : option jsstring :=
  let '(source, lineNum, pattern) := parse_check_ignore output in
  removeRuleAt content (option_map (λ n, (n - 1)%Z) (parseInt lineNum)).

(** * The list of templates

    [fetchGithubTemplates] keeps, of the entries GitHub lists, those
    whose name ends with [.gitignore]; [extension.generateGitignore]
    turns each into an item of the quick pick.  An entry is modelled
    by the two fields the code reads. *)

Record Template := mkTemplate {
  name : jsstring;
  download_url : jsstring;
}.

Record QuickPickItem := mkItem {
  label : jsstring;
  description : jsstring;
  url : jsstring;
}.

Definition GITIGNORE : jsstring := js ".gitignore".

(** [s.endsWith(searchString)] *)
Definition endsWith (searchString s : jsstring) : bool :=
  bool_decide (searchString `suffix_of` s).

(** [s.indexOf(searchString)]; [None] is the answer -1. *)
Fixpoint indexOf (searchString s : jsstring) : option nat :=
  if decide (searchString `prefix_of` s) then Some 0%nat
  else match s with
       | [] => None
       | _ :: r => S <$> indexOf searchString r
       end.

(** [s.replace(searchValue, replaceValue)] for a string
    [searchValue] and a [replaceValue] without dollar signs: the
    first occurrence is replaced. *)
Definition string_replace (searchValue replaceValue s : jsstring) : jsstring :=
  match indexOf searchValue s with
  | None => s
  | Some pos =>
      take pos s ++ replaceValue ++ drop (pos + length searchValue) s
  end.

(** The answer of [fetchGithubTemplates] when GitHub lists [json]. *)
Definition fetchGithubTemplates (json : list Template) : list Template :=
  filter (λ item, endsWith GITIGNORE (name item) = true) json.

(** [templates.map(t => ({ label: t.name.replace('.gitignore', ''),
    description: t.name, url: t.download_url }))] *)
Definition quick_pick_items (templates : list Template) : list QuickPickItem :=
  map (λ t, mkItem (string_replace GITIGNORE [] (name t)) (name t)
              (download_url t))
    templates.

(** * Notions used in the statements and proofs *)

(** ** Kinds of lines *)

Definition all_ws (s : jsstring) : Prop := Forall (λ c, is_ws c = true) s.

(** A line is blank when trimming leaves nothing of it. *)
Definition nonblank (l : jsstring) : Prop := trim l ≠ [].

(** What [trim] returns is determined by a decomposition of its
    argument into whitespace, a core that neither starts nor ends
    with whitespace, and whitespace. *)
Definition trimmed_core (t : jsstring) : Prop :=
  (∃ c r, t = c :: r ∧ is_ws c = false) ∧ (∃ r c, t = r ++ [c] ∧ is_ws c = false).

(** A trimmed line is a rule when it is not empty and does not start
    with [#]; it is a comment when it starts with [#]. *)
Definition is_rule (t : jsstring) : bool :=
  truthy t && negb (startsWith_hash t).

Definition is_comment (t : jsstring) : bool :=
  truthy t && startsWith_hash t.

(** The rule lines among the given lines, trimmed, in their order. *)
Definition rule_lines (lines : list jsstring) : list jsstring :=
  filter is_rule (map trim lines).

Definition no_lf (l : jsstring) : Prop := LF ∉ l.

Definition ends_with_cr (l : jsstring) : Prop := ∃ r, l = r ++ [CR].

Definition ends_with_crb (l : jsstring) : bool :=
  match last l with
  | Some c => c =? CR
  | None => false
  end.

(** The line without one carriage return at its end, if it has one. *)
Fixpoint strip_cr (l : jsstring) : jsstring :=
  match l with
  | [] => []
  | [c] => if c =? CR then [] else [c]
  | c :: r => c :: strip_cr r
  end.

(** The strings stored as rules: one line, trimmed, not empty and
    not starting with [#]. *)
Definition rule_str (r : jsstring) : Prop :=
  no_lf r ∧ trimmed_core r ∧ startsWith_hash r = false.

(** The strings stored as comments: one line whose trimmed form
    starts with [#]. *)
Definition comment_line (c : jsstring) : Prop :=
  no_lf c ∧ startsWith_hash (trim c) = true.

(** No comment line among the given lines ends with a carriage
    return. *)
Definition comments_without_cr (lines : list jsstring) : Prop :=
  Forall (λ c, startsWith_hash (trim c) = true → ¬ ends_with_cr c) lines.

(** A line as the parser uses it: a comment line is kept as it is, of
    any other line only the trimmed form matters. *)
Definition norm (l : jsstring) : jsstring :=
  if startsWith_hash (trim l) then l else trim l.

(** ** Sections and their text *)

(** A section all of whose comments satisfy [Pc] and all of whose
    rules satisfy [Pr]. *)
Definition sec_ok (Pc Pr : jsstring → Prop) (s : RuleSection) : Prop :=
  Forall Pc (comments s) ∧ Forall Pr (rules s).

Definition st_ok (Pc Pr : jsstring → Prop) (st : ParseState) : Prop :=
  Forall (λ s, has_content s = true ∧ sec_ok Pc Pr s) (sections st)
  ∧ sec_ok Pc Pr (currentSection st).

Definition wf_section (s : RuleSection) : Prop :=
  has_content s = true ∧ sec_ok comment_line rule_str s.

Definition wf_section_nocr (s : RuleSection) : Prop :=
  has_content s = true
  ∧ sec_ok (λ c, comment_line c ∧ ¬ ends_with_cr c) rule_str s.

(** The sections the Smart branch builds for a text, and the sorted
    distinct rules the Flat branch builds for it. *)
Definition smart_sections (content : jsstring) : list RuleSection :=
  parse_sections (split_lines content).

Definition flat_rules (content : jsstring) : list jsstring :=
  js_sort (array_from_set (rule_lines (split_lines content))).

Definition map_first (f : jsstring → jsstring) (ls : list jsstring) : list jsstring :=
  match ls with
  | [] => []
  | l :: r => f l :: r
  end.

Fixpoint map_last (f : jsstring → jsstring) (ls : list jsstring) : list jsstring :=
  match ls with
  | [] => []
  | [l] => [f l]
  | l :: r => l :: map_last f r
  end.

(** The comment lines of a section as they stand in its text: the
    section text is trimmed as a whole, which takes the whitespace in
    front of the first comment and, when no rule follows, the
    whitespace behind the last one. *)
Definition out_comments (s : RuleSection) : list jsstring :=
  match rules s with
  | [] => map_last trimEnd (map_first trimStart (comments s))
  | _ :: _ => map_first trimStart (comments s)
  end.

Definition out_rules (s : RuleSection) : list jsstring :=
  js_sort (array_from_set (rules s)).

Definition section_lines (s : RuleSection) : list jsstring :=
  out_comments s ++ out_rules s.

(** The section read back from the text of a section. *)
Definition resection (s : RuleSection) : RuleSection :=
  mkSection (out_comments s) (out_rules s).

(** The text made of the given lines, each followed by a line feed. *)
Definition unlines (ls : list jsstring) : jsstring :=
  flat_map (λ l, l ++ [LF]) ls.

(** The lines of several blocks, with an empty line after each. *)
Definition blocks_lines (sls : list (list jsstring)) : list jsstring :=
  flat_map (λ sl, sl ++ [[]]) sls.

(** ** Reading an output text *)

(** The paragraphs of a list of lines: the maximal runs of lines that
    are not blank.  In a Smart output these are the rendered
    sections. *)
Fixpoint paragraphs_from (cur : list jsstring) (ls : list jsstring)
  : list (list jsstring) :=
  match ls with
  | [] => match cur with [] => [] | _ :: _ => [cur] end
  | l :: r =>
      if truthy (trim l) then paragraphs_from (cur ++ [l]) r
      else match cur with
           | [] => paragraphs_from [] r
           | _ :: _ => cur :: paragraphs_from [] r
           end
  end.

Definition paragraphs (ls : list jsstring) : list (list jsstring) :=
  paragraphs_from [] ls.

(** Does the text contain a carriage return directly followed by a
    line feed? *)
Fixpoint has_crlf (s : jsstring) : bool :=
  match s with
  | [] => false
  | c :: r =>
      match r with
      | [] => false
      | c' :: _ => ((c =? CR) && (c' =? LF)) || has_crlf r
      end
  end.

(** ** Texts with chosen line endings *)

Inductive Eol := EolLF | EolCRLF.

Definition eol (e : Eol) : jsstring :=
  match e with
  | EolLF => [LF]
  | EolCRLF => [CR; LF]
  end.

(** The text of the line [l] followed by the lines of [rest], each
    of them behind the line ending it is paired with. *)
Fixpoint assemble (l : jsstring) (rest : list (Eol * jsstring)) : jsstring :=
  match rest with
  | [] => l
  | (e, l') :: rest' => l ++ eol e ++ assemble l' rest'
  end.

(** Splitting gives every line back, up to a carriage return at its
    end. *)
Definition same_line (a b : jsstring) : Prop := b = a ∨ b = strip_cr a.

(** ** Code points *)

(** The code points of a string: a high surrogate directly followed
    by a low surrogate stands for one code point above U+FFFF. *)
Definition is_high_surrogate (c : N) : bool := (55296 <=? c) && (c <=? 56319).

Definition is_low_surrogate (c : N) : bool := (56320 <=? c) && (c <=? 57343).

Fixpoint code_points (s : jsstring) : list N :=
  match s with
  | [] => []
  | hi :: r =>
      match r with
      | lo :: r' =>
          if is_high_surrogate hi && is_low_surrogate lo
          then (65536 + (hi - 55296) * 1024 + (lo - 56320)) :: code_points r'
          else hi :: code_points r
      | [] => [hi]
      end
  end.

(** Lexicographic order on code points. *)
Definition code_point_le (x y : jsstring) : Prop :=
  str_le (code_points x) (code_points y).

Definition without_high_surrogate (s : jsstring) : Prop :=
  Forall (λ c, is_high_surrogate c = false) s.

(** ** Further readings of a list of lines *)

(** The comment lines among the given lines, trimmed, in their order. *)
Definition comment_lines (lines : list jsstring) : list jsstring :=
  filter is_comment (map trim lines).

(** The lines that are not blank, trimmed, in their order. *)
Definition nonblank_lines (lines : list jsstring) : list jsstring :=
  filter truthy (map trim lines).

(** Do two blank lines stand next to each other? *)
Fixpoint double_blank (ls : list jsstring) : bool :=
  match ls with
  | [] => false
  | a :: r =>
      match r with
      | [] => false
      | b :: _ => (negb (truthy (trim a)) && negb (truthy (trim b))) || double_blank r
      end
  end.

(** The sections of a final parser state ("push last section"). *)
Definition parse_sections_of (st : ParseState) : list RuleSection :=
  if has_content (currentSection st)
  then sections st ++ [currentSection st]
  else sections st.


(** The number a decimal numeral stands for. *)
Definition decimal (ds : jsstring) : Z :=
  fold_left (λ acc c, (acc * 10 + (Z.of_N c - 48))%Z) ds 0%Z.

(** * Properties *)

(** ** The scenarios of the specification *)

Example scenario_A :
  organize (js "b\n# keep\na\na\n") Flat = js "a\nb\n".
Proof. vm_compute. reflexivity. Qed.

Example scenario_B : organize (js "b\na\n") Smart = js "a\nb\n".
Proof. vm_compute. reflexivity. Qed.

Example scenario_C :
  organize (js "# Logs\n*.log\ndebug.log\n\n# Deps\nnode_modules\nnode_modules\n") Smart
  = js "# Logs\n*.log\ndebug.log\n\n# Deps\nnode_modules\n".
Proof. vm_compute. reflexivity. Qed.

(** ** Whitespace and trimming *)

Lemma is_ws_LF : is_ws LF = true.
Proof. reflexivity. Qed.

Lemma is_ws_CR : is_ws CR = true.
Proof. reflexivity. Qed.

Lemma is_ws_HASH : is_ws HASH = false.
Proof. reflexivity. Qed.

Lemma trimStart_ws pre s : all_ws pre → trimStart (pre ++ s) = trimStart s.
Proof.
  induction 1 as [|c pre Hc _ IH]; simpl; [done|]. by rewrite Hc.
Qed.

Lemma trimStart_keep c r : is_ws c = false → trimStart (c :: r) = c :: r.
Proof. intros H. simpl. by rewrite H. Qed.

Lemma trimStart_split s :
  ∃ pre, s = pre ++ trimStart s ∧ all_ws pre.
Proof.
  induction s as [|c r (pre & E & Hpre)]; simpl.
  - exists []. split; [done | constructor].
  - destruct (is_ws c) eqn:Hc.
    + exists (c :: pre). split; [simpl; by f_equal | by constructor].
    + exists []. split; [done | constructor].
Qed.

Lemma trimStart_head s c r : trimStart s = c :: r → is_ws c = false.
Proof.
  induction s as [|d s IH]; simpl; [done|].
  destruct (is_ws d) eqn:Hd; [done|]. by intros [= -> _].
Qed.

Lemma trimStart_nil s : trimStart s = [] ↔ all_ws s.
Proof.
  induction s as [|c s IH]; simpl.
  - split; [constructor | done].
  - destruct (is_ws c) eqn:Hc.
    + rewrite IH. split; [by constructor | by inversion 1].
    + split; [done | inversion 1; congruence].
Qed.

Lemma all_ws_rev s : all_ws (rev s) ↔ all_ws s.
Proof. unfold all_ws. rewrite rev_alt. apply Forall_reverse. Qed.

Lemma all_ws_app s t : all_ws (s ++ t) ↔ all_ws s ∧ all_ws t.
Proof. apply Forall_app. Qed.

Lemma trimEnd_ws s post : all_ws post → trimEnd (s ++ post) = trimEnd s.
Proof.
  intros H. unfold trimEnd. rewrite rev_app_distr, trimStart_ws; [done|].
  by apply all_ws_rev.
Qed.

Lemma trimEnd_keep r c : is_ws c = false → trimEnd (r ++ [c]) = r ++ [c].
Proof.
  intros H. unfold trimEnd. rewrite rev_app_distr. simpl.
  rewrite H. simpl. by rewrite rev_involutive.
Qed.

Lemma trimEnd_split s :
  ∃ post, s = trimEnd s ++ post ∧ all_ws post.
Proof.
  destruct (trimStart_split (rev s)) as (pre & E & Hpre).
  exists (rev pre). split; [|by apply all_ws_rev].
  unfold trimEnd. rewrite <- rev_app_distr, <- E. by rewrite rev_involutive.
Qed.

Lemma trimEnd_last s r c : trimEnd s = r ++ [c] → is_ws c = false.
Proof.
  unfold trimEnd. intros E.
  apply (f_equal (@rev N)) in E. rewrite rev_involutive, rev_app_distr in E.
  simpl in E. by apply trimStart_head in E.
Qed.

Lemma trimEnd_nil s : trimEnd s = [] ↔ all_ws s.
Proof.
  unfold trimEnd. rewrite <- all_ws_rev, <- trimStart_nil.
  split; intros E; [|by rewrite E].
  apply (f_equal (@rev N)) in E. by rewrite rev_involutive in E.
Qed.

Lemma trimEnd_cons_keep c r :
  is_ws c = false → ∃ r', trimEnd (c :: r) = c :: r'.
Proof.
  intros Hc. destruct (trimEnd_split (c :: r)) as (post & E & Hpost).
  destruct (trimEnd (c :: r)) as [|d r'] eqn:Et.
  - simpl in E. subst post. inversion Hpost; congruence.
  - simpl in E. injection E as <- _. by exists r'.
Qed.

Lemma trim_core pre t post :
  all_ws pre → all_ws post → trimmed_core t → trim (pre ++ t ++ post) = t.
Proof.
  intros Hpre Hpost [(c & r & -> & Hc) (r' & d & E & Hd)].
  unfold trim. rewrite trimStart_ws by done.
  change ((c :: r) ++ post) with (c :: (r ++ post)).
  rewrite trimStart_keep by done.
  change (c :: (r ++ post)) with ((c :: r) ++ post).
  rewrite trimEnd_ws by done. rewrite E. by apply trimEnd_keep.
Qed.

Lemma trim_fixed t : trimmed_core t → trim t = t.
Proof.
  intros H. rewrite <- (trim_core [] t []) at 2; [|constructor..|done].
  simpl. by rewrite app_nil_r.
Qed.

Lemma trim_nil s : trim s = [] ↔ all_ws s.
Proof.
  unfold trim. rewrite trimEnd_nil.
  destruct (trimStart_split s) as (pre & E & Hpre).
  split; intros H.
  - rewrite E. apply all_ws_app. done.
  - rewrite E in H. by apply all_ws_app in H as [_ ?].
Qed.

Lemma trim_split s :
  ∃ pre post, s = pre ++ trim s ++ post ∧ all_ws pre ∧ all_ws post.
Proof.
  destruct (trimStart_split s) as (pre & E & Hpre).
  destruct (trimEnd_split (trimStart s)) as (post & E' & Hpost).
  exists pre, post. split; [|done]. unfold trim. by rewrite <- E', <- E.
Qed.

Lemma trim_is_core s : trim s ≠ [] → trimmed_core (trim s).
Proof.
  intros Hne. split.
  - unfold trim in *. destruct (trimStart s) as [|c r] eqn:E.
    + by destruct Hne.
    + apply trimStart_head in E as Hc.
      destruct (trimEnd_cons_keep c r Hc) as (r' & ->). eauto.
  - destruct (trim s) as [|c r] eqn:E using rev_ind; [done|].
    unfold trim in E. apply trimEnd_last in E. eauto.
Qed.

Lemma trim_idemp s : trim (trim s) = trim s.
Proof.
  destruct (decide (trim s = [])) as [->|Hne]; [done|].
  by apply trim_fixed, trim_is_core.
Qed.

Lemma trim_ws_l pre s : all_ws pre → trim (pre ++ s) = trim s.
Proof. intros H. unfold trim. by rewrite trimStart_ws. Qed.

Lemma trim_ws_r s post : all_ws post → trim (s ++ post) = trim s.
Proof.
  intros H. destruct (trim_split s) as (pre & post' & E & Hpre & Hpost').
  destruct (decide (trim s = [])) as [Hn|Hne].
  - rewrite Hn. apply trim_nil, all_ws_app. split; [by apply trim_nil | done].
  - rewrite E at 1. rewrite <- !app_assoc.
    apply trim_core; [done| |by apply trim_is_core].
    by apply all_ws_app.
Qed.

(** ** The order of the default sort *)

Lemma str_ltb_cons a s b t :
  str_ltb (a :: s) (b :: t) = true ↔ a < b ∨ (a = b ∧ str_ltb s t = true).
Proof.
  simpl. rewrite orb_true_iff, andb_true_iff, N.ltb_lt, N.eqb_eq. done.
Qed.

Lemma str_ltb_irrefl s : str_ltb s s = false.
Proof.
  induction s as [|a s IH]; [done|].
  apply not_true_is_false. rewrite str_ltb_cons, IH. intros [?|[_ ?]]; [lia|done].
Qed.

Lemma str_ltb_trans s t u :
  str_ltb s t = true → str_ltb t u = true → str_ltb s u = true.
Proof.
  revert t u. induction s as [|a s IH]; intros [|b t] [|c u]; try done.
  rewrite !str_ltb_cons. intros [?|[-> ?]] [?|[-> ?]]; eauto with lia.
Qed.

Lemma str_ltb_trichotomy s t :
  str_ltb s t = true ∨ s = t ∨ str_ltb t s = true.
Proof.
  revert t. induction s as [|a s IH]; intros [|b t]; auto.
  rewrite !str_ltb_cons.
  destruct (N.lt_trichotomy a b) as [?|[->|?]]; auto.
  destruct (IH t) as [?|[->|?]]; auto.
Qed.

Lemma str_ltb_asym s t : str_ltb s t = true → str_ltb t s = false.
Proof.
  intros H. apply not_true_is_false. intros H'.
  pose proof (str_ltb_trans _ _ _ H H') as E. by rewrite str_ltb_irrefl in E.
Qed.

Global Instance str_le_refl : Reflexive str_le.
Proof. intros s. apply str_ltb_irrefl. Qed.

Global Instance str_le_total : Total str_le.
Proof.
  intros s t. unfold str_le.
  destruct (str_ltb t s) eqn:E; [right; by apply str_ltb_asym | by left].
Qed.

Global Instance str_le_trans : Transitive str_le.
Proof.
  intros s t u. unfold str_le. intros Hts Hut.
  apply not_true_is_false. intros Hus.
  destruct (str_ltb_trichotomy s t) as [H|[->|H]]; [|congruence..].
  pose proof (str_ltb_trans _ _ _ Hus H). congruence.
Qed.

Global Instance str_le_antisym : AntiSymm (=) str_le.
Proof.
  intros s t. unfold str_le. intros Hts Hst.
  destruct (str_ltb_trichotomy s t) as [H|[->|H]]; congruence.
Qed.

(** ** Sorting *)

Lemma js_sort_sorted ls : Sorted str_le (js_sort ls).
Proof. apply (Sorted_merge_sort str_le). Qed.

Lemma js_sort_perm ls : js_sort ls ≡ₚ ls.
Proof. apply (merge_sort_Permutation str_le). Qed.

(** There is one sorted arrangement of a list, so the model of
    [sort()] does not depend on the algorithm an engine uses. *)
Lemma js_sort_unique ls ls' : Sorted str_le ls' → ls' ≡ₚ ls → js_sort ls = ls'.
Proof.
  intros Hs Hp. apply (Sorted_unique str_le); [apply js_sort_sorted|done|].
  by rewrite js_sort_perm.
Qed.

Lemma js_sort_id ls : Sorted str_le ls → js_sort ls = ls.
Proof. intros H. by apply js_sort_unique. Qed.

Lemma js_sort_elem x ls : x ∈ js_sort ls ↔ x ∈ ls.
Proof. by rewrite js_sort_perm. Qed.

Lemma js_sort_NoDup ls : NoDup (js_sort ls) ↔ NoDup ls.
Proof. by rewrite js_sort_perm. Qed.

Lemma js_sort_nil ls : js_sort ls = [] ↔ ls = [].
Proof.
  split; [|by intros ->].
  intros E. apply Permutation_nil_r. by rewrite <- E, js_sort_perm.
Qed.

(** ** Removing duplicates *)

Lemma fold_set_add_elem x ls acc :
  x ∈ fold_left set_add ls acc ↔ x ∈ acc ∨ x ∈ ls.
Proof.
  revert acc. induction ls as [|l ls IH]; intros acc; simpl.
  - rewrite elem_of_nil. tauto.
  - rewrite IH, elem_of_cons. unfold set_add. case_bool_decide.
    + split; [tauto|]. intros [?|[->|?]]; auto.
    + rewrite elem_of_app, list_elem_of_singleton. tauto.
Qed.

Lemma fold_set_add_NoDup ls acc :
  NoDup acc → NoDup (fold_left set_add ls acc).
Proof.
  revert acc. induction ls as [|l ls IH]; intros acc H; simpl; [done|].
  apply IH. unfold set_add. case_bool_decide; [done|].
  apply NoDup_app. split_and!; [done| |apply NoDup_singleton].
  intros x Hx ->%list_elem_of_singleton. done.
Qed.

Lemma fold_set_add_fresh ls acc :
  NoDup (acc ++ ls) → fold_left set_add ls acc = acc ++ ls.
Proof.
  revert acc. induction ls as [|l ls IH]; intros acc H; simpl.
  - by rewrite app_nil_r.
  - unfold set_add. case_bool_decide as Hin.
    + apply NoDup_app in H as (_ & H & _). destruct (H l Hin). by left.
    + rewrite IH; rewrite <- app_assoc; done.
Qed.

Lemma array_from_set_elem x ls : x ∈ array_from_set ls ↔ x ∈ ls.
Proof.
  unfold array_from_set. rewrite fold_set_add_elem, elem_of_nil. tauto.
Qed.

Lemma array_from_set_NoDup ls : NoDup (array_from_set ls).
Proof. apply fold_set_add_NoDup. constructor. Qed.

Lemma array_from_set_id ls : NoDup ls → array_from_set ls = ls.
Proof. intros H. by apply fold_set_add_fresh. Qed.

(** The sorted, duplicate-free arrangement of a list of rules depends
    on the set of its elements only. *)
Lemma sort_set_ext ls ls' :
  (∀ x, x ∈ ls ↔ x ∈ ls') →
  js_sort (array_from_set ls) = js_sort (array_from_set ls').
Proof.
  intros H. apply js_sort_unique; [apply js_sort_sorted|].
  rewrite js_sort_perm.
  apply NoDup_Permutation; [apply array_from_set_NoDup..|].
  intros x. rewrite !array_from_set_elem. symmetry. apply H.
Qed.

Lemma sort_set_fixed ls :
  Sorted str_le ls → NoDup ls → js_sort (array_from_set ls) = ls.
Proof. intros Hs Hn. rewrite array_from_set_id by done. by apply js_sort_id. Qed.

(** ** Flat Sort: the loop computes the distinct rule lines *)

Lemma flat_loop_spec lines st :
  uniqueLines st = list_to_set (cleanedLines st) →
  cleanedLines (fold_left flat_step lines st)
  = fold_left set_add (rule_lines lines) (cleanedLines st).
Proof.
  revert st. induction lines as [|l lines IH]; intros st Hst; [done|].
  simpl. unfold rule_lines in *. simpl. rewrite filter_cons.
  unfold flat_step at 2. fold (is_rule (trim l)).
  destruct (is_rule (trim l)) eqn:Hr; simpl.
  - unfold set_add at 2. rewrite Hst.
    rewrite (bool_decide_ext (trim l ∈ list_to_set (C:=gset jsstring) (cleanedLines st))
               (trim l ∈ cleanedLines st)) by apply elem_of_list_to_set.
    case_bool_decide; simpl.
    + rewrite IH; [done|]. by rewrite <- Hst.
    + rewrite IH; simpl; [done|].
      rewrite list_to_set_app_L. simpl.
      rewrite (right_id_L ∅ (∪)). apply (comm_L (∪)).
  - by apply IH.
Qed.

Lemma organize_flat_spec content :
  organize_flat content
  = join [LF] (js_sort (array_from_set (rule_lines (split_lines content)))) ++ [LF].
Proof.
  unfold organize_flat, flat_loop. rewrite flat_loop_spec; [done|].
  simpl. set_solver.
Qed.

(** ** Joining and splitting *)

Lemma join_cons sep l ls :
  join sep (l :: ls) = l ++ flat_map (λ x, sep ++ x) ls.
Proof.
  revert l. induction ls as [|l' ls IH]; intros l.
  - simpl. by rewrite app_nil_r.
  - change (join sep (l :: l' :: ls)) with (l ++ sep ++ join sep (l' :: ls)).
    rewrite IH. simpl. by rewrite <- !app_assoc.
Qed.

Lemma join_snoc sep ls l :
  join sep (ls ++ [l]) = flat_map (λ x, x ++ sep) ls ++ l.
Proof.
  induction ls as [|l' ls IH]; [done|].
  change ((l' :: ls) ++ [l]) with (l' :: (ls ++ [l])).
  destruct (ls ++ [l]) as [|l2 ls2] eqn:E; [by destruct ls|].
  change (join sep (l' :: l2 :: ls2)) with (l' ++ sep ++ join sep (l2 :: ls2)).
  rewrite IH. simpl. by rewrite <- !app_assoc.
Qed.

Lemma join_app sep ls1 ls2 :
  ls1 ≠ [] → ls2 ≠ [] →
  join sep (ls1 ++ ls2) = join sep ls1 ++ sep ++ join sep ls2.
Proof.
  intros H1 H2. induction ls1 as [|l1 [|l1' ls1] IH]; [done|..].
  - destruct ls2; done.
  - change (join sep ((l1 :: l1' :: ls1) ++ ls2))
      with (l1 ++ sep ++ join sep ((l1' :: ls1) ++ ls2)).
    rewrite IH by done.
    change (join sep (l1 :: l1' :: ls1)) with (l1 ++ sep ++ join sep (l1' :: ls1)).
    by rewrite <- !app_assoc.
Qed.

Lemma strip_cr_snoc_cr l : strip_cr (l ++ [CR]) = l.
Proof.
  induction l as [|c [|c' r] IH]; [done..|].
  change (strip_cr ((c :: c' :: r) ++ [CR]))
    with (c :: strip_cr ((c' :: r) ++ [CR])). by rewrite IH.
Qed.

Lemma strip_cr_snoc l c : c ≠ CR → strip_cr (l ++ [c]) = l ++ [c].
Proof.
  intros Hc. induction l as [|d [|d' r] IH].
  - simpl. by rewrite (proj2 (N.eqb_neq c CR)).
  - simpl. by rewrite (proj2 (N.eqb_neq c CR)).
  - change (strip_cr ((d :: d' :: r) ++ [c]))
      with (d :: strip_cr ((d' :: r) ++ [c])). by rewrite IH.
Qed.

Lemma strip_cr_id l : ¬ ends_with_cr l → strip_cr l = l.
Proof.
  destruct l as [|c r _] using rev_ind; [done|].
  intros H. apply strip_cr_snoc. intros ->. apply H. by exists r.
Qed.

Lemma strip_cr_cases l : strip_cr l = l ∨ l = strip_cr l ++ [CR].
Proof.
  destruct l as [|c r _] using rev_ind; [by left|].
  destruct (decide (c = CR)) as [->|Hc].
  - right. by rewrite strip_cr_snoc_cr.
  - left. by apply strip_cr_snoc.
Qed.

Lemma trim_strip_cr l : trim (strip_cr l) = trim l.
Proof.
  destruct (strip_cr_cases l) as [->|E]; [done|].
  rewrite E at 2. rewrite trim_ws_r; [done|]. by repeat constructor.
Qed.

(** The two characters the pattern looks at. *)
Lemma split_lines_cons2 c c' r :
  split_lines (c :: c' :: r)
  = if c =? LF then [] :: split_lines (c' :: r)
    else if (c =? CR) && (c' =? LF) then [] :: split_lines r
         else cons_hd c (split_lines (c' :: r)).
Proof. reflexivity. Qed.

Lemma split_lines_no_lf l : no_lf l → split_lines l = [l].
Proof.
  unfold no_lf. induction l as [|c [|c' r] IH]; intros H; [done|..].
  - simpl. rewrite (proj2 (N.eqb_neq c LF)); [done|].
    intros ->. apply H. by left.
  - rewrite !not_elem_of_cons in H. destruct H as (Hc & Hc' & Hr).
    rewrite split_lines_cons2.
    rewrite (proj2 (N.eqb_neq c LF)), (proj2 (N.eqb_neq c' LF)) by done.
    rewrite andb_false_r, IH; [done|].
    rewrite not_elem_of_cons. done.
Qed.

Lemma split_lines_lf l rest :
  no_lf l → split_lines (l ++ LF :: rest) = strip_cr l :: split_lines rest.
Proof.
  unfold no_lf. induction l as [|c [|c' r] IH]; intros H.
  - done.
  - rewrite not_elem_of_cons in H. destruct H as [Hc _].
    simpl. rewrite (proj2 (N.eqb_neq c LF)) by done. simpl.
    rewrite andb_true_r. by destruct (c =? CR).
  - rewrite !not_elem_of_cons in H. destruct H as (Hc & Hc' & Hr).
    change ((c :: c' :: r) ++ LF :: rest) with (c :: c' :: (r ++ LF :: rest)).
    rewrite split_lines_cons2.
    change (c' :: (r ++ LF :: rest)) with ((c' :: r) ++ LF :: rest).
    rewrite (proj2 (N.eqb_neq c LF)), (proj2 (N.eqb_neq c' LF)) by done.
    rewrite andb_false_r, IH; [done|].
    rewrite not_elem_of_cons. done.
Qed.

Lemma split_lines_crlf l rest :
  no_lf l → split_lines (l ++ CR :: LF :: rest) = l :: split_lines rest.
Proof.
  intros H. change (CR :: LF :: rest) with ([CR] ++ LF :: rest).
  rewrite app_assoc, split_lines_lf, strip_cr_snoc_cr; [done|].
  unfold no_lf in *. rewrite elem_of_app, list_elem_of_singleton.
  intros [?|?]; done.
Qed.

Lemma cons_hd_no_lf c ls :
  c ≠ LF → Forall no_lf ls → Forall no_lf (cons_hd c ls).
Proof.
  intros Hc [|l ls' Hl Hls]; simpl.
  - repeat constructor. unfold no_lf. rewrite list_elem_of_singleton. congruence.
  - constructor; [|done]. unfold no_lf in *. rewrite not_elem_of_cons. done.
Qed.

(** No line produced by the split contains a line feed. *)
Lemma split_lines_no_lf_lines s : Forall no_lf (split_lines s).
Proof.
  assert (Hnil : no_lf []) by (unfold no_lf; apply not_elem_of_nil).
  induction s as [s IH] using (induction_ltof1 _ (@length N)).
  unfold ltof in IH. destruct s as [|c [|c' r]].
  - by repeat constructor.
  - simpl. destruct (c =? LF) eqn:E; [by repeat constructor|].
    repeat constructor. unfold no_lf. rewrite list_elem_of_singleton.
    apply N.eqb_neq in E. congruence.
  - rewrite split_lines_cons2.
    destruct (c =? LF) eqn:E.
    + constructor; [done|]. apply IH. simpl. lia.
    + destruct ((c =? CR) && (c' =? LF)).
      * constructor; [done|]. apply IH. simpl. lia.
      * apply cons_hd_no_lf; [by apply N.eqb_neq|]. apply IH. simpl. lia.
Qed.

Lemma join_lf_snoc_nil ls : join [LF] (ls ++ [[]]) = unlines ls.
Proof. rewrite join_snoc. by rewrite app_nil_r. Qed.

Lemma join_lf_unlines ls : ls ≠ [] → join [LF] ls ++ [LF] = unlines ls.
Proof.
  destruct ls as [|l ls _] using rev_ind; [done|]. intros _.
  rewrite join_snoc. unfold unlines. rewrite flat_map_app. simpl.
  by rewrite app_nil_r, <- app_assoc.
Qed.

Lemma split_lines_unlines ls :
  Forall no_lf ls → split_lines (unlines ls) = map strip_cr ls ++ [[]].
Proof.
  induction 1 as [|l ls Hl _ IH]; [done|].
  unfold unlines in *. simpl. rewrite <- app_assoc. simpl.
  by rewrite split_lines_lf, IH.
Qed.

(** ** Rule lines *)

Lemma no_lf_trim l : no_lf l → no_lf (trim l).
Proof.
  unfold no_lf. intros H Hin. apply H.
  destruct (trim_split l) as (pre & post & E & _). rewrite E.
  rewrite !elem_of_app. auto.
Qed.

Lemma truthy_true (s : jsstring) : truthy s = true ↔ s ≠ [].
Proof. by destruct s. Qed.

Lemma is_rule_true t :
  is_rule t = true ↔ t ≠ [] ∧ startsWith_hash t = false.
Proof.
  unfold is_rule. rewrite andb_true_iff, negb_true_iff, truthy_true. done.
Qed.

Lemma is_comment_true t :
  is_comment t = true ↔ startsWith_hash t = true.
Proof.
  unfold is_comment. rewrite andb_true_iff, truthy_true.
  split; [tauto|]. by destruct t.
Qed.

Lemma rule_lines_elem r lines :
  r ∈ rule_lines lines ↔ ∃ l, l ∈ lines ∧ r = trim l ∧ is_rule (trim l) = true.
Proof.
  unfold rule_lines. rewrite list_elem_of_filter, list_elem_of_In, in_map_iff.
  rewrite Is_true_true. setoid_rewrite <- list_elem_of_In.
  split.
  - intros (Hr & l & <- & Hl). eauto.
  - intros (l & Hl & -> & Hr). eauto.
Qed.

Lemma rule_lines_str lines :
  Forall no_lf lines → Forall rule_str (rule_lines lines).
Proof.
  intros H. apply Forall_forall. intros r (l & Hl & -> & Hr)%rule_lines_elem.
  apply is_rule_true in Hr as [Hne Hh].
  split_and!; [|by apply trim_is_core|done].
  apply no_lf_trim. by apply (proj1 (Forall_forall _ _) H).
Qed.

Lemma rule_str_trim r : rule_str r → trim r = r.
Proof. intros (_ & H & _). by apply trim_fixed. Qed.

Lemma rule_str_is_rule r : rule_str r → is_rule r = true.
Proof.
  intros (_ & [(c & r' & -> & _) _] & H). apply is_rule_true. done.
Qed.

Lemma core_no_cr r : trimmed_core r → ¬ ends_with_cr r.
Proof.
  intros [_ (r1 & c & -> & Hc)] [r2 E].
  apply app_inj_tail in E as [_ ->]. done.
Qed.

Lemma rule_str_strip r : rule_str r → strip_cr r = r.
Proof. intros (_ & H & _). by apply strip_cr_id, core_no_cr. Qed.

Lemma rule_lines_fixed rs : Forall rule_str rs → rule_lines rs = rs.
Proof.
  unfold rule_lines. induction 1 as [|r rs Hr _ IH]; [done|].
  simpl. rewrite filter_cons, (rule_str_trim r Hr), (rule_str_is_rule r Hr).
  simpl. by rewrite IH.
Qed.

Lemma rule_lines_app ls1 ls2 :
  rule_lines (ls1 ++ ls2) = rule_lines ls1 ++ rule_lines ls2.
Proof. unfold rule_lines. by rewrite map_app, filter_app. Qed.

Lemma rule_lines_strip ls : rule_lines (map strip_cr ls) = rule_lines ls.
Proof.
  unfold rule_lines. f_equal. rewrite map_map. apply map_ext.
  apply trim_strip_cr.
Qed.

(** ** The lines of the Flat output *)

Lemma flat_rules_str content : Forall rule_str (flat_rules content).
Proof.
  apply Forall_forall. intros r Hr.
  unfold flat_rules in Hr. rewrite js_sort_elem, array_from_set_elem in Hr.
  revert r Hr. apply Forall_forall, rule_lines_str, split_lines_no_lf_lines.
Qed.

Lemma Forall_rule_str_no_lf rs : Forall rule_str rs → Forall no_lf rs.
Proof. intros H. eapply Forall_impl; [done|]. by intros r (? & _). Qed.

Lemma map_strip_rules rs : Forall rule_str rs → map strip_cr rs = rs.
Proof.
  induction 1 as [|r rs Hr _ IH]; [done|].
  simpl. by rewrite IH, rule_str_strip.
Qed.

Lemma flat_lines content :
  split_lines (organize_flat content)
  = match flat_rules content with
    | [] => [[]; []]
    | rs => rs ++ [[]]
    end.
Proof.
  rewrite organize_flat_spec. fold (flat_rules content).
  pose proof (flat_rules_str content) as Hstr.
  destruct (flat_rules content) as [|r rs] eqn:E; [done|].
  rewrite join_lf_unlines by done.
  rewrite split_lines_unlines by by apply Forall_rule_str_no_lf.
  by rewrite map_strip_rules.
Qed.

Lemma flat_rule_lines content :
  rule_lines (split_lines (organize_flat content)) = flat_rules content.
Proof.
  rewrite flat_lines. pose proof (flat_rules_str content) as Hstr.
  destruct (flat_rules content) as [|r rs] eqn:E; [done|].
  rewrite rule_lines_app, rule_lines_fixed by done.
  apply app_nil_r.
Qed.

(** ** Trimming a text of several lines *)

Lemma map_last_snoc f ls l : map_last f (ls ++ [l]) = ls ++ [f l].
Proof.
  induction ls as [|l' ls IH]; [done|].
  change ((l' :: ls) ++ [l]) with (l' :: (ls ++ [l])).
  destruct (ls ++ [l]) as [|l2 ls2] eqn:E; [by destruct ls|].
  change (map_last f (l' :: l2 :: ls2)) with (l' :: map_last f (l2 :: ls2)).
  by rewrite IH.
Qed.

Lemma map_last_app f ls1 ls2 :
  ls2 ≠ [] → map_last f (ls1 ++ ls2) = ls1 ++ map_last f ls2.
Proof.
  destruct ls2 as [|l ls2 _] using rev_ind; [done|]. intros _.
  by rewrite app_assoc, !map_last_snoc, app_assoc.
Qed.

Lemma map_last_id f ls :
  (∀ l, l ∈ ls → f l = l) → map_last f ls = ls.
Proof.
  destruct ls as [|l ls _] using rev_ind; [done|]. intros H.
  rewrite map_last_snoc, H; [done|]. rewrite elem_of_app, list_elem_of_singleton. auto.
Qed.

Lemma nonblank_not_ws l : nonblank l ↔ ¬ all_ws l.
Proof. unfold nonblank. by rewrite trim_nil. Qed.

Lemma trimStart_app l r :
  nonblank l → trimStart (l ++ r) = trimStart l ++ r.
Proof.
  rewrite nonblank_not_ws. induction l as [|c l IH]; intros H.
  - destruct H. constructor.
  - simpl. destruct (is_ws c) eqn:Hc; [|done].
    apply IH. intros H'. apply H. by constructor.
Qed.

Lemma trimEnd_app r l :
  nonblank l → trimEnd (r ++ l) = r ++ trimEnd l.
Proof.
  intros H. unfold trimEnd. rewrite rev_app_distr, trimStart_app.
  - by rewrite rev_app_distr, rev_involutive.
  - apply nonblank_not_ws. rewrite all_ws_rev. by apply nonblank_not_ws.
Qed.

Lemma trim_trimStart l : trim (trimStart l) = trim l.
Proof.
  destruct (trimStart_split l) as (pre & E & Hpre).
  rewrite E at 2. by rewrite trim_ws_l.
Qed.

Lemma trim_trimEnd l : trim (trimEnd l) = trim l.
Proof.
  destruct (trimEnd_split l) as (post & E & Hpost).
  rewrite E at 2. by rewrite trim_ws_r.
Qed.

Lemma trim_join sep ls :
  ls ≠ [] → Forall nonblank ls →
  trim (join sep ls) = join sep (map_last trimEnd (map_first trimStart ls)).
Proof.
  intros Hne Hnb. destruct ls as [|l ls]; [done|]. clear Hne.
  apply Forall_cons in Hnb as [Hl Hls].
  change (map_first trimStart (l :: ls)) with (trimStart l :: ls).
  assert (Forall nonblank (trimStart l :: ls)) as Hnb.
  { constructor; [|done]. unfold nonblank. by rewrite trim_trimStart. }
  unfold trim. rewrite join_cons, trimStart_app by done. rewrite <- join_cons.
  destruct (trimStart l :: ls) as [|z front _] using rev_ind; [done|].
  apply Forall_app in Hnb as [_ [Hz _]%Forall_cons].
  by rewrite join_snoc, trimEnd_app, <- join_snoc, map_last_snoc.
Qed.

(** ** The sections built by the Smart parser *)

Lemma has_content_true s :
  has_content s = true ↔ comments s ≠ [] ∨ rules s ≠ [].
Proof.
  unfold has_content. rewrite orb_true_iff.
  destruct (comments s), (rules s); simpl; split; intros [?|?]; auto; done.
Qed.

Lemma has_content_false s :
  has_content s = false ↔ comments s = [] ∧ rules s = [].
Proof.
  unfold has_content. rewrite orb_false_iff.
  destruct (comments s), (rules s); simpl; split; intros [? ?]; auto; done.
Qed.

Lemma length_pos_true {A} (l : list A) : (0 <? length l)%nat = true ↔ l ≠ [].
Proof. by destruct l. Qed.

(** Properties of the stored comments and rules that every step of
    the loop keeps. *)
Section ParseInvariant.

Variables Pc Pr : jsstring → Prop.

Lemma flush_ok st :
  has_content (currentSection st) = true →
  st_ok Pc Pr st → st_ok Pc Pr (flush st).
Proof.
  intros Hc [Hs Hcur]. split; simpl.
  - apply Forall_app. split; [done|]. by apply Forall_singleton.
  - split; constructor.
Qed.

Lemma smart_step_ok st l :
  st_ok Pc Pr st →
  (is_comment (trim l) = true → Pc l) →
  (is_rule (trim l) = true → Pr (trim l)) →
  st_ok Pc Pr (smart_step st l).
Proof.
  intros Hst HPc HPr. unfold smart_step.
  destruct (truthy (trim l)) eqn:Ht; simpl.
  - destruct (startsWith_hash (trim l)) eqn:Hh.
    + assert (Pc l) as Hl by (apply HPc, is_comment_true; done).
      destruct (0 <? length (rules (currentSection st)))%nat eqn:Hr.
      * apply length_pos_true in Hr.
        destruct (flush_ok st) as [Hs Hcur]; [|done|].
        { apply has_content_true. by right. }
        split; [done|]. split; simpl; repeat constructor; done.
      * destruct Hst as [Hs [Hc Hrs]]. split; [done|]. split; simpl; [|done].
        apply Forall_app. by repeat constructor.
    + destruct Hst as [Hs [Hc Hrs]]. split; [done|]. split; simpl; [done|].
      apply Forall_app. split; [done|]. repeat constructor.
      apply HPr. unfold is_rule. by rewrite Ht, Hh.
  - destruct (has_content (currentSection st)) eqn:Hc; [|done].
    by apply flush_ok.
Qed.

Lemma fold_smart_step_ok lines st :
  st_ok Pc Pr st →
  Forall (λ l, (is_comment (trim l) = true → Pc l)
               ∧ (is_rule (trim l) = true → Pr (trim l))) lines →
  st_ok Pc Pr (fold_left smart_step lines st).
Proof.
  intros Hst H. revert st Hst.
  induction H as [|l lines [H1 H2] _ IH]; intros st Hst; [done|].
  simpl. by apply IH, smart_step_ok.
Qed.

Lemma parse_sections_ok lines :
  Forall (λ l, (is_comment (trim l) = true → Pc l)
               ∧ (is_rule (trim l) = true → Pr (trim l))) lines →
  Forall (λ s, has_content s = true ∧ sec_ok Pc Pr s) (parse_sections lines).
Proof.
  intros H. unfold parse_sections, smart_loop.
  destruct (fold_smart_step_ok lines (mkParse [] empty_section))
    as [Hs Hcur]; [|done|].
  { split; [constructor|]. split; constructor. }
  destruct (has_content _) eqn:Hc; [|done].
  apply Forall_app. split; [done|]. by apply Forall_singleton.
Qed.

End ParseInvariant.

(** The rules of the sections, in order, are the rule lines of the
    input. *)
Lemma fold_smart_step_rules lines st :
  let st' := fold_left smart_step lines st in
  flat_map rules (sections st') ++ rules (currentSection st')
  = (flat_map rules (sections st) ++ rules (currentSection st))
    ++ rule_lines lines.
Proof.
  revert st. induction lines as [|l lines IH]; intros st; simpl.
  - unfold rule_lines. simpl. by rewrite app_nil_r.
  - rewrite IH. clear IH.
    unfold rule_lines. simpl. rewrite filter_cons.
    unfold smart_step, is_rule.
    destruct (truthy (trim l)) eqn:Ht; simpl.
    + destruct (startsWith_hash (trim l)) eqn:Hh; simpl.
      * destruct (0 <? length (rules (currentSection st)))%nat; simpl; [|done].
        rewrite flat_map_app. simpl. by rewrite !app_nil_r.
      * by rewrite <- !app_assoc.
    + destruct (has_content (currentSection st)); simpl; [|done].
      rewrite flat_map_app. simpl. by rewrite !app_nil_r.
Qed.

Lemma parse_sections_rules lines :
  flat_map rules (parse_sections lines) = rule_lines lines.
Proof.
  pose proof (fold_smart_step_rules lines (mkParse [] empty_section)) as H.
  simpl in H. unfold parse_sections, smart_loop.
  destruct (has_content _) eqn:Hc.
  - rewrite flat_map_app. simpl. by rewrite app_nil_r.
  - apply has_content_false in Hc as [_ Hr]. rewrite Hr, app_nil_r in H. done.
Qed.

(** ** The text of a section *)

Lemma parse_sections_wf content :
  Forall wf_section (parse_sections (split_lines content)).
Proof.
  apply parse_sections_ok.
  eapply Forall_impl; [apply split_lines_no_lf_lines|].
  intros l Hl. split.
  - intros Hc. split; [done|]. by apply is_comment_true.
  - intros Hr. apply is_rule_true in Hr as [Hne Hh].
    split_and!; [by apply no_lf_trim|by apply trim_is_core|done].
Qed.

Lemma array_from_set_nil ls : array_from_set ls = [] ↔ ls = [].
Proof.
  split; [|by intros ->]. intros E. destruct ls as [|l ls]; [done|].
  assert (l ∈ array_from_set (l :: ls)) as H by (apply array_from_set_elem; by left).
  rewrite E in H. by apply elem_of_nil in H.
Qed.

Lemma out_rules_nil s : out_rules s = [] ↔ rules s = [].
Proof. unfold out_rules. by rewrite js_sort_nil, array_from_set_nil. Qed.

Lemma out_rules_str s : Forall rule_str (rules s) → Forall rule_str (out_rules s).
Proof.
  rewrite !Forall_forall. intros H r Hr. apply H.
  unfold out_rules in Hr. by rewrite js_sort_elem, array_from_set_elem in Hr.
Qed.

Lemma out_rules_sorted s : Sorted str_le (out_rules s).
Proof. apply js_sort_sorted. Qed.

Lemma out_rules_NoDup s : NoDup (out_rules s).
Proof. apply js_sort_NoDup, array_from_set_NoDup. Qed.

Lemma out_rules_elem r s : r ∈ out_rules s ↔ r ∈ rules s.
Proof. unfold out_rules. by rewrite js_sort_elem, array_from_set_elem. Qed.

Lemma comment_nonblank c : comment_line c → nonblank c.
Proof. intros [_ H] E. by rewrite E in H. Qed.

Lemma rule_nonblank r : rule_str r → nonblank r.
Proof.
  intros H. unfold nonblank. rewrite (rule_str_trim r H).
  by destruct H as (_ & [(c & r' & -> & _) _] & _).
Qed.

Lemma rule_trimStart r : rule_str r → trimStart r = r.
Proof. intros (_ & [(c & r' & -> & Hc) _] & _). by apply trimStart_keep. Qed.

Lemma rule_trimEnd r : rule_str r → trimEnd r = r.
Proof. intros (_ & [_ (r' & c & -> & Hc)] & _). by apply trimEnd_keep. Qed.

Lemma trim_ends_rules rs :
  Forall rule_str rs → map_last trimEnd (map_first trimStart rs) = rs.
Proof.
  intros H. destruct rs as [|r rs]; [done|]. simpl map_first.
  apply Forall_cons in H as H'. destruct H' as [Hr Hrs].
  rewrite rule_trimStart by done. apply map_last_id.
  intros l Hl. apply rule_trimEnd. revert l Hl. by apply Forall_forall.
Qed.

Lemma join_nonempty sep l ls : l ≠ [] → join sep (l :: ls) ≠ [].
Proof. intros H. rewrite join_cons. by destruct l. Qed.

Lemma render_section_lines s :
  wf_section s → render_section s = join [LF] (section_lines s).
Proof.
  intros (Hc & Hcs & Hrs). unfold render_section, section_lines, out_comments.
  fold (out_rules s).
  pose proof (out_rules_str s Hrs) as HU.
  pose proof (out_rules_nil s) as HUnil.
  assert (Forall nonblank (out_rules s)) as HUnb.
  { eapply Forall_impl; [done|]. apply rule_nonblank. }
  assert (Forall nonblank (comments s)) as HCnb.
  { eapply Forall_impl; [done|]. apply comment_nonblank. }
  apply has_content_true in Hc.
  destruct (comments s) as [|c cs] eqn:Ecs.
  - (* no header *)
    destruct Hc as [?|Hr]; [done|].
    destruct (rules s) as [|r0 rs0] eqn:Ers; [done|].
    destruct (out_rules s) as [|u us] eqn:EU.
    { destruct HUnil as [H _]. by specialize (H eq_refl). }
    cbn [length Nat.ltb Nat.leb map_first app].
    assert (truthy (join [LF] (u :: us)) = true) as ->.
    { apply truthy_true, join_nonempty. apply Forall_cons in HUnb as [Hu _].
      intros ->. by apply Hu. }
    cbn [negb andb truthy].
    rewrite trim_join by done. by rewrite trim_ends_rules.
  - change (0 <? length (c :: cs))%nat with true. cbv iota.
    assert (truthy (join [LF] (c :: cs) ++ [LF]) = true) as ->.
    { apply truthy_true. by destruct (join [LF] (c :: cs)). }
    cbn [negb andb].
    destruct (rules s) as [|r0 rs0] eqn:Ers.
    + (* header only *)
      rewrite (proj2 HUnil) by done. rewrite !app_nil_r.
      rewrite trim_ws_r by (by repeat constructor).
      by rewrite trim_join.
    + (* header and rules *)
      assert (out_rules s ≠ []) as HUne by (rewrite HUnil; done).
      rewrite <- app_assoc, <- join_app by done.
      rewrite trim_join; [|done|by apply Forall_app].
      change (map_first trimStart ((c :: cs) ++ out_rules s))
        with (map_first trimStart (c :: cs) ++ out_rules s).
      rewrite map_last_app by done. f_equal. f_equal.
      apply map_last_id. intros l Hl. apply rule_trimEnd.
      revert l Hl. by apply Forall_forall.
Qed.

(** ** The lines of a section text *)

Lemma map_first_Forall (P : jsstring → Prop) f ls :
  (∀ l, P l → P (f l)) → Forall P ls → Forall P (map_first f ls).
Proof. intros Hf [|l ls' Hl Hls]; simpl; constructor; auto. Qed.

Lemma map_last_Forall (P : jsstring → Prop) f ls :
  (∀ l, P l → P (f l)) → Forall P ls → Forall P (map_last f ls).
Proof.
  intros Hf H. destruct ls as [|l ls _] using rev_ind; [done|].
  rewrite map_last_snoc. apply Forall_app in H as [H1 [H2 _]%Forall_cons].
  apply Forall_app. split; [done|]. apply Forall_singleton. auto.
Qed.

Lemma map_first_nil f ls : map_first f ls = [] ↔ ls = [].
Proof. by destruct ls. Qed.

Lemma map_last_nil f ls : map_last f ls = [] ↔ ls = [].
Proof.
  destruct ls as [|l ls _] using rev_ind; [done|].
  rewrite map_last_snoc. split; intros H; by destruct ls.
Qed.

Lemma out_comments_nil s : out_comments s = [] ↔ comments s = [].
Proof.
  unfold out_comments. destruct (rules s).
  - by rewrite map_last_nil, map_first_nil.
  - by rewrite map_first_nil.
Qed.

Lemma out_comments_Forall (P : jsstring → Prop) s :
  (∀ l, P l → P (trimStart l)) → (∀ l, P l → P (trimEnd l)) →
  Forall P (comments s) → Forall P (out_comments s).
Proof.
  intros H1 H2 H. unfold out_comments. destruct (rules s).
  - by apply map_last_Forall, map_first_Forall.
  - by apply map_first_Forall.
Qed.

Lemma no_lf_trimStart l : no_lf l → no_lf (trimStart l).
Proof.
  unfold no_lf. intros H Hin. apply H.
  destruct (trimStart_split l) as (pre & E & _). rewrite E, elem_of_app. auto.
Qed.

Lemma no_lf_trimEnd l : no_lf l → no_lf (trimEnd l).
Proof.
  unfold no_lf. intros H Hin. apply H.
  destruct (trimEnd_split l) as (post & E & _). rewrite E, elem_of_app. auto.
Qed.

Lemma comment_line_trimStart c : comment_line c → comment_line (trimStart c).
Proof.
  intros [H1 H2]. split; [by apply no_lf_trimStart|]. by rewrite trim_trimStart.
Qed.

Lemma comment_line_trimEnd c : comment_line c → comment_line (trimEnd c).
Proof.
  intros [H1 H2]. split; [by apply no_lf_trimEnd|]. by rewrite trim_trimEnd.
Qed.

Lemma no_cr_trimStart l : ¬ ends_with_cr l → ¬ ends_with_cr (trimStart l).
Proof.
  intros H [r E]. apply H.
  destruct (trimStart_split l) as (pre & E' & _).
  exists (pre ++ r). by rewrite E' at 1; rewrite E, app_assoc.
Qed.

Lemma no_cr_trimEnd l : ¬ ends_with_cr (trimEnd l).
Proof. intros [r E]. by apply trimEnd_last in E. Qed.

Lemma out_comments_ok s :
  Forall comment_line (comments s) → Forall comment_line (out_comments s).
Proof.
  apply out_comments_Forall;
    [apply comment_line_trimStart | apply comment_line_trimEnd].
Qed.

Lemma comment_line_no_lf cs : Forall comment_line cs → Forall no_lf cs.
Proof. intros H. eapply Forall_impl; [done|]. by intros c [? _]. Qed.

Lemma section_lines_no_lf s : wf_section s → Forall no_lf (section_lines s).
Proof.
  intros (_ & Hc & Hr). apply Forall_app. split.
  - by apply comment_line_no_lf, out_comments_ok.
  - by apply Forall_rule_str_no_lf, out_rules_str.
Qed.

Lemma section_lines_nonblank s : wf_section s → Forall nonblank (section_lines s).
Proof.
  intros (_ & Hc & Hr). apply Forall_app. split.
  - eapply Forall_impl; [by apply out_comments_ok|]. apply comment_nonblank.
  - eapply Forall_impl; [by apply out_rules_str|]. apply rule_nonblank.
Qed.

Lemma section_lines_nonempty s : wf_section s → section_lines s ≠ [].
Proof.
  intros (Hc & _ & _) E. apply has_content_true in Hc.
  apply app_eq_nil in E as [E1 E2].
  apply out_comments_nil in E1. apply out_rules_nil in E2. tauto.
Qed.

Lemma nonblank_nonempty l : nonblank l → l ≠ [].
Proof. intros H ->. by apply H. Qed.

Lemma render_section_nonempty s : wf_section s → render_section s ≠ [].
Proof.
  intros H. rewrite render_section_lines by done.
  pose proof (section_lines_nonempty s H) as Hne.
  pose proof (section_lines_nonblank s H) as Hnb.
  destruct (section_lines s) as [|l ls]; [done|].
  apply join_nonempty, nonblank_nonempty. by apply Forall_cons in Hnb as [? _].
Qed.

(** ** The lines of the Smart output *)

Lemma smart_text sls :
  sls ≠ [] → Forall (λ sl, sl ≠ []) sls →
  join [LF; LF] (map (join [LF]) sls) ++ [LF] = join [LF] (blocks_lines sls).
Proof.
  intros Hne H. induction H as [|sl sls Hsl Hsls IH]; [done|]. clear Hne.
  unfold blocks_lines in *. cbn [flat_map map].
  destruct sls as [|sl' sls].
  - simpl. rewrite app_nil_r, join_lf_snoc_nil. by apply join_lf_unlines.
  - rewrite join_app; [|by destruct sl|by destruct sl'].
    rewrite <- IH by done. rewrite join_lf_snoc_nil, <- join_lf_unlines by done.
    change (join [LF; LF] (join [LF] sl :: map (join [LF]) (sl' :: sls)))
      with (join [LF] sl ++ [LF; LF] ++ join [LF; LF] (map (join [LF]) (sl' :: sls))).
    by rewrite <- !app_assoc.
Qed.

Lemma split_join_blank ls :
  Forall no_lf ls →
  split_lines (join [LF] (ls ++ [[]])) = map strip_cr (ls ++ [[]]).
Proof.
  intros H. rewrite join_lf_snoc_nil, split_lines_unlines by done.
  by rewrite map_app.
Qed.

Lemma blocks_lines_snoc sls :
  sls ≠ [] → ∃ ls, blocks_lines sls = ls ++ [[]].
Proof.
  destruct sls as [|sl sls _] using rev_ind; [done|]. intros _.
  unfold blocks_lines. rewrite flat_map_app. simpl. rewrite app_nil_r.
  exists (flat_map (λ sl, sl ++ [[]]) sls ++ sl). by rewrite <- app_assoc.
Qed.

Lemma blocks_lines_Forall (P : jsstring → Prop) sls :
  P [] → Forall (Forall P) sls → Forall P (blocks_lines sls).
Proof.
  intros H0 H. unfold blocks_lines. induction H as [|sl sls Hsl _ IH]; [constructor|].
  simpl. rewrite <- app_assoc. apply Forall_app. split; [done|].
  by constructor.
Qed.

Lemma organize_smart_render content :
  organize_smart content
  = join [LF; LF] (map render_section (smart_sections content)) ++ [LF].
Proof.
  unfold organize_smart. fold (smart_sections content).
  f_equal. f_equal.
  pose proof (parse_sections_wf content) as H. fold (smart_sections content) in H.
  induction H as [|s secs Hs _ IH]; [done|].
  simpl. rewrite filter_cons, IH.
  rewrite decide_True; [done|].
  apply render_section_nonempty in Hs. destruct (render_section s); [done|simpl; lia].
Qed.

Lemma organize_smart_text content :
  smart_sections content ≠ [] →
  organize_smart content
  = join [LF] (blocks_lines (map section_lines (smart_sections content))).
Proof.
  intros Hne. rewrite organize_smart_render.
  pose proof (parse_sections_wf content) as H. fold (smart_sections content) in H.
  rewrite <- smart_text.
  - rewrite map_map. f_equal. f_equal. apply map_ext_Forall.
    eapply Forall_impl; [done|]. intros s Hs. by apply render_section_lines.
  - by destruct (smart_sections content).
  - apply Forall_map. eapply Forall_impl; [done|].
    intros s Hs. by apply section_lines_nonempty.
Qed.

Lemma organize_smart_empty content :
  smart_sections content = [] → organize_smart content = [LF].
Proof. intros E. rewrite organize_smart_render, E. done. Qed.

Lemma smart_lines content :
  split_lines (organize_smart content)
  = match smart_sections content with
    | [] => [[]; []]
    | secs => map strip_cr (blocks_lines (map section_lines secs))
    end.
Proof.
  destruct (smart_sections content) as [|s secs] eqn:E.
  - by rewrite organize_smart_empty.
  - rewrite organize_smart_text, E by (by rewrite E).
    destruct (blocks_lines_snoc (map section_lines (s :: secs))) as [ls Els]; [done|].
    assert (Forall no_lf (blocks_lines (map section_lines (s :: secs)))) as Hlf.
    { apply blocks_lines_Forall; [apply not_elem_of_nil|].
      apply Forall_map. rewrite <- E.
      eapply Forall_impl; [apply parse_sections_wf|]. apply section_lines_no_lf. }
    rewrite Els in *. apply split_join_blank.
    by apply Forall_app in Hlf as [? _].
Qed.

(** ** Reading an output text back: paragraphs *)

Lemma paragraphs_from_run cur sl rest :
  Forall nonblank sl →
  paragraphs_from cur (sl ++ rest) = paragraphs_from (cur ++ sl) rest.
Proof.
  intros H. revert cur. induction H as [|l sl Hl _ IH]; intros cur.
  - by rewrite app_nil_r.
  - simpl. rewrite (proj2 (truthy_true _) Hl), IH. by rewrite <- app_assoc.
Qed.

Lemma paragraphs_blocks_lines sls :
  Forall (λ sl, sl ≠ [] ∧ Forall nonblank sl) sls →
  paragraphs (blocks_lines sls) = sls.
Proof.
  unfold paragraphs, blocks_lines.
  induction 1 as [|sl sls [Hne Hnb] _ IH]; [done|].
  simpl. rewrite <- app_assoc, paragraphs_from_run by done.
  simpl. rewrite IH. by destruct sl.
Qed.

Lemma map_blocks_lines (f : jsstring → jsstring) sls :
  f [] = [] → map f (blocks_lines sls) = blocks_lines (map (map f) sls).
Proof.
  intros Hf. unfold blocks_lines. induction sls as [|sl sls IH]; [done|].
  simpl. by rewrite !map_app, IH; simpl; rewrite Hf.
Qed.

Lemma smart_paragraphs content :
  paragraphs (split_lines (organize_smart content))
  = map (λ s, map strip_cr (section_lines s)) (smart_sections content).
Proof.
  rewrite smart_lines.
  pose proof (parse_sections_wf content) as H. fold (smart_sections content) in H.
  destruct (smart_sections content) as [|s secs] eqn:E; [done|].
  rewrite map_blocks_lines, map_map by done.
  apply paragraphs_blocks_lines, Forall_map.
  eapply Forall_impl; [done|]. intros s' Hs'. simpl. split.
  - pose proof (section_lines_nonempty s' Hs'). by destruct (section_lines s').
  - apply Forall_map. eapply Forall_impl; [by apply section_lines_nonblank|].
    intros l Hl. simpl. unfold nonblank. by rewrite trim_strip_cr.
Qed.

Lemma rule_lines_comments cs :
  Forall comment_line cs → rule_lines cs = [].
Proof.
  unfold rule_lines. induction 1 as [|c cs [_ Hc] _ IH]; [done|].
  simpl. rewrite filter_cons.
  assert (is_rule (trim c) = false) as ->; [|done].
  unfold is_rule. by rewrite Hc, andb_false_r.
Qed.

Lemma rule_lines_section s :
  wf_section s → rule_lines (map strip_cr (section_lines s)) = out_rules s.
Proof.
  intros (_ & Hc & Hr). rewrite rule_lines_strip. unfold section_lines.
  rewrite rule_lines_app, rule_lines_comments by by apply out_comments_ok.
  apply rule_lines_fixed. by apply out_rules_str.
Qed.

(** The rule lines of each paragraph of the Smart output are the
    sorted distinct rules of the corresponding section. *)
Lemma smart_paragraph_rules content :
  map rule_lines (paragraphs (split_lines (organize_smart content)))
  = map out_rules (smart_sections content).
Proof.
  rewrite smart_paragraphs, map_map. apply map_ext_Forall.
  eapply Forall_impl; [apply parse_sections_wf|].
  intros s Hs. by apply rule_lines_section.
Qed.

(** ** Parsing a Smart output again *)

Lemma smart_step_comment S cs rs c :
  startsWith_hash (trim c) = true → rs = [] →
  smart_step (mkParse S (mkSection cs rs)) c = mkParse S (mkSection (cs ++ [c]) []).
Proof.
  intros Hc ->. unfold smart_step.
  assert (truthy (trim c) = true) as -> by (by destruct (trim c)).
  by rewrite Hc.
Qed.

Lemma smart_step_rule S cs rs r :
  rule_str r →
  smart_step (mkParse S (mkSection cs rs)) r = mkParse S (mkSection cs (rs ++ [r])).
Proof.
  intros Hr. unfold smart_step. rewrite (rule_str_trim r Hr).
  pose proof (rule_str_is_rule r Hr) as H. apply is_rule_true in H as [Hne Hh].
  by rewrite (proj2 (truthy_true r) Hne), Hh.
Qed.

Lemma smart_step_blank S cur :
  has_content cur = true →
  smart_step (mkParse S cur) [] = mkParse (S ++ [cur]) empty_section.
Proof. intros H. unfold smart_step. simpl. by rewrite H. Qed.

Lemma fold_comments cs S c0 :
  Forall comment_line cs →
  fold_left smart_step cs (mkParse S (mkSection c0 []))
  = mkParse S (mkSection (c0 ++ cs) []).
Proof.
  intros H. revert c0. induction H as [|c cs [_ Hc] _ IH]; intros c0.
  - by rewrite app_nil_r.
  - simpl. rewrite smart_step_comment, IH by done. by rewrite <- app_assoc.
Qed.

Lemma fold_rules rs S cs r0 :
  Forall rule_str rs →
  fold_left smart_step rs (mkParse S (mkSection cs r0))
  = mkParse S (mkSection cs (r0 ++ rs)).
Proof.
  intros H. revert r0. induction H as [|r rs Hr _ IH]; intros r0.
  - by rewrite app_nil_r.
  - simpl. rewrite smart_step_rule, IH by done. by rewrite <- app_assoc.
Qed.

Lemma fold_section cs rs S :
  Forall comment_line cs → Forall rule_str rs → cs ++ rs ≠ [] →
  fold_left smart_step ((cs ++ rs) ++ [[]]) (mkParse S empty_section)
  = mkParse (S ++ [mkSection cs rs]) empty_section.
Proof.
  intros Hc Hr Hne. rewrite !fold_left_app. unfold empty_section.
  rewrite fold_comments, fold_rules by done. simpl.
  apply smart_step_blank, has_content_true. simpl.
  destruct cs; [right; by destruct rs | by left].
Qed.

Lemma fold_blocks secs S :
  Forall wf_section secs →
  fold_left smart_step (blocks_lines (map section_lines secs))
    (mkParse S empty_section)
  = mkParse (S ++ map resection secs) empty_section.
Proof.
  intros H. revert S. induction H as [|s secs Hs _ IH]; intros S.
  - simpl. by rewrite app_nil_r.
  - unfold blocks_lines in *. simpl. rewrite fold_left_app.
    change (section_lines s) with (out_comments s ++ out_rules s).
    rewrite fold_section.
    + rewrite IH, <- app_assoc. done.
    + by apply out_comments_ok, Hs.
    + by apply out_rules_str, Hs.
    + by apply (section_lines_nonempty s).
Qed.

Lemma parse_blocks secs :
  Forall wf_section secs →
  parse_sections (blocks_lines (map section_lines secs)) = map resection secs.
Proof.
  intros H. unfold parse_sections, smart_loop. by rewrite fold_blocks.
Qed.

Lemma render_trimmed s : trim (render_section s) = render_section s.
Proof.
  unfold render_section. destruct (_ && _); [done|]. apply trim_idemp.
Qed.

(** Rendering the section read back from a section text gives that
    text again. *)
Lemma render_resection s :
  wf_section s → render_section (resection s) = render_section s.
Proof.
  intros Hs.
  pose proof (render_trimmed s) as Ht.
  pose proof (render_section_nonempty s Hs) as Hne.
  rewrite (render_section_lines s Hs) in Ht, Hne.
  rewrite (render_section_lines s Hs).
  unfold section_lines in *. unfold render_section, resection.
  cbn [comments rules].
  rewrite sort_set_fixed by (apply out_rules_sorted || apply out_rules_NoDup).
  destruct (out_comments s) as [|c cs] eqn:Ec.
  - cbn [length Nat.ltb Nat.leb app] in *.
    rewrite (proj2 (truthy_true _) Hne). cbn [negb andb truthy]. done.
  - change (0 <? length (c :: cs))%nat with true. cbv iota.
    assert (truthy (join [LF] (c :: cs) ++ [LF]) = true) as ->.
    { apply truthy_true. by destruct (join [LF] (c :: cs)). }
    cbn [negb andb].
    destruct (out_rules s) as [|u us] eqn:Eu.
    + rewrite !app_nil_r in *. rewrite trim_ws_r by (by repeat constructor). done.
    + rewrite <- app_assoc, <- join_app by done. done.
Qed.

(** ** Carriage returns in the Smart output *)

Lemma parse_sections_wf_nocr content :
  comments_without_cr (split_lines content) →
  Forall wf_section_nocr (smart_sections content).
Proof.
  intros H. apply parse_sections_ok.
  pose proof (split_lines_no_lf_lines content) as Hlf.
  apply Forall_forall. intros l Hl.
  pose proof (proj1 (Forall_forall _ _) H l Hl) as Hcr.
  pose proof (proj1 (Forall_forall _ _) Hlf l Hl) as Hnl.
  split.
  - intros Hc%is_comment_true. split; [done|]. by apply Hcr.
  - intros Hr. apply is_rule_true in Hr as [Hne Hh].
    split_and!; [by apply no_lf_trim|by apply trim_is_core|done].
Qed.

Lemma section_lines_nocr s :
  wf_section_nocr s → Forall (λ l, ¬ ends_with_cr l) (section_lines s).
Proof.
  intros (_ & Hc & Hr). apply Forall_app. split.
  - apply out_comments_Forall.
    + apply no_cr_trimStart.
    + intros l _. apply no_cr_trimEnd.
    + eapply Forall_impl; [done|]. by intros c [_ ?].
  - eapply Forall_impl; [by apply out_rules_str|].
    intros r (_ & H & _). by apply core_no_cr.
Qed.

Lemma map_strip_cr_id ls :
  Forall (λ l, ¬ ends_with_cr l) ls → map strip_cr ls = ls.
Proof.
  induction 1 as [|l ls Hl _ IH]; [done|]. simpl. by rewrite IH, strip_cr_id.
Qed.

Lemma not_ends_with_cr_nil : ¬ ends_with_cr [].
Proof. intros [r E]. by destruct r. Qed.

Lemma smart_lines_nocr content :
  comments_without_cr (split_lines content) →
  smart_sections content ≠ [] →
  split_lines (organize_smart content)
  = blocks_lines (map section_lines (smart_sections content)).
Proof.
  intros Hcr Hne. rewrite smart_lines.
  destruct (smart_sections content) as [|s secs] eqn:E; [done|].
  apply map_strip_cr_id, blocks_lines_Forall; [apply not_ends_with_cr_nil|].
  apply Forall_map. rewrite <- E.
  eapply Forall_impl; [by apply parse_sections_wf_nocr|].
  apply section_lines_nocr.
Qed.

(** Smart Sort leaves its own output unchanged when no comment line
    of the input ends with a carriage return. *)
Lemma organize_smart_idemp content :
  comments_without_cr (split_lines content) →
  organize_smart (organize_smart content) = organize_smart content.
Proof.
  intros Hcr.
  destruct (decide (smart_sections content = [])) as [E|Hne].
  - rewrite (organize_smart_empty content E). reflexivity.
  - rewrite (organize_smart_render (organize_smart content)).
    unfold smart_sections at 1. rewrite smart_lines_nocr by done.
    pose proof (parse_sections_wf content) as Hwf.
    fold (smart_sections content) in Hwf.
    rewrite parse_blocks by done.
    rewrite organize_smart_render. f_equal. f_equal.
    rewrite map_map. apply map_ext_Forall.
    eapply Forall_impl; [done|]. intros s Hs. by apply render_resection.
Qed.

(** ** The rule lines of the Smart output *)

Lemma rule_lines_blocks sls :
  rule_lines (blocks_lines sls) = flat_map rule_lines sls.
Proof.
  unfold blocks_lines. induction sls as [|sl sls IH]; [done|].
  simpl. rewrite !rule_lines_app, IH. f_equal. apply app_nil_r.
Qed.

Lemma rule_lines_section_lines s :
  wf_section s → rule_lines (section_lines s) = out_rules s.
Proof. intros H. rewrite <- rule_lines_strip. by apply rule_lines_section. Qed.

Lemma smart_rule_lines content :
  rule_lines (split_lines (organize_smart content))
  = flat_map out_rules (smart_sections content).
Proof.
  rewrite smart_lines.
  pose proof (parse_sections_wf content) as H. fold (smart_sections content) in H.
  destruct (smart_sections content) as [|s secs] eqn:E; [done|].
  rewrite rule_lines_strip, rule_lines_blocks. clear E.
  induction H as [|s' secs' Hs' _ IH]; [done|].
  simpl. by rewrite IH, rule_lines_section_lines.
Qed.

Lemma smart_rule_lines_elem r content :
  r ∈ rule_lines (split_lines (organize_smart content))
  ↔ r ∈ rule_lines (split_lines content).
Proof.
  rewrite smart_rule_lines, <- (parse_sections_rules (split_lines content)).
  fold (smart_sections content).
  rewrite !list_elem_of_In, !in_flat_map.
  setoid_rewrite <- list_elem_of_In. by setoid_rewrite out_rules_elem.
Qed.

(** ** Line endings *)

Lemma has_crlf_line l rest :
  no_lf l → ¬ ends_with_cr l → has_crlf (l ++ LF :: rest) = has_crlf rest.
Proof.
  unfold no_lf. induction l as [|c [|c' r] IH]; intros Hlf Hcr.
  - simpl. by destruct rest.
  - assert (c ≠ CR) as Hc by (intros ->; apply Hcr; by exists []).
    change (has_crlf ([c] ++ LF :: rest))
      with (((c =? CR) && (LF =? LF)) || has_crlf ([] ++ LF :: rest)).
    rewrite (proj2 (N.eqb_neq c CR)) by done.
    apply IH; [apply not_elem_of_nil | apply not_ends_with_cr_nil].
  - rewrite !not_elem_of_cons in Hlf. destruct Hlf as (Hc & Hc' & Hr).
    change (has_crlf ((c :: c' :: r) ++ LF :: rest))
      with (((c =? CR) && (c' =? LF)) || has_crlf ((c' :: r) ++ LF :: rest)).
    rewrite (proj2 (N.eqb_neq c' LF)), andb_false_r by done.
    apply IH.
    + rewrite not_elem_of_cons. done.
    + intros [r' E]. apply Hcr. exists (c :: r'). by rewrite E.
Qed.

Lemma has_crlf_unlines ls :
  Forall no_lf ls → Forall (λ l, ¬ ends_with_cr l) ls →
  has_crlf (unlines ls) = false.
Proof.
  intros H. induction H as [|l ls Hl _ IH]; intros Hcr; [done|].
  apply Forall_cons in Hcr as [Hcr1 Hcr2].
  unfold unlines in *. simpl. rewrite <- app_assoc. simpl.
  rewrite has_crlf_line by done. by apply IH.
Qed.

Lemma flat_no_crlf content : has_crlf (organize_flat content) = false.
Proof.
  rewrite organize_flat_spec. fold (flat_rules content).
  pose proof (flat_rules_str content) as H.
  destruct (flat_rules content) as [|r rs] eqn:E; [done|].
  rewrite join_lf_unlines by done. apply has_crlf_unlines.
  - by apply Forall_rule_str_no_lf.
  - eapply Forall_impl; [done|]. intros r' (_ & Hr' & _). by apply core_no_cr.
Qed.

Lemma smart_no_crlf content :
  comments_without_cr (split_lines content) →
  has_crlf (organize_smart content) = false.
Proof.
  intros Hcr.
  destruct (decide (smart_sections content = [])) as [E|Hne].
  - by rewrite organize_smart_empty.
  - rewrite organize_smart_text by done.
    destruct (blocks_lines_snoc (map section_lines (smart_sections content)))
      as [ls Els]; [by destruct (smart_sections content)|].
    assert (Forall no_lf (ls ++ [[]])) as Hlf.
    { rewrite <- Els. apply blocks_lines_Forall; [apply not_elem_of_nil|].
      apply Forall_map.
      eapply Forall_impl; [apply parse_sections_wf|]. apply section_lines_no_lf. }
    assert (Forall (λ l, ¬ ends_with_cr l) (ls ++ [[]])) as Hnc.
    { rewrite <- Els. apply blocks_lines_Forall; [apply not_ends_with_cr_nil|].
      apply Forall_map.
      eapply Forall_impl; [by apply parse_sections_wf_nocr|].
      apply section_lines_nocr. }
    rewrite Els, join_lf_snoc_nil.
    apply Forall_app in Hlf as [Hlf _]. apply Forall_app in Hnc as [Hnc _].
    by apply has_crlf_unlines.
Qed.

Lemma trim_norm l : trim (norm l) = trim l.
Proof. unfold norm. destruct (startsWith_hash (trim l)); [done|apply trim_idemp]. Qed.

Lemma smart_step_norm st l : smart_step st (norm l) = smart_step st l.
Proof.
  unfold smart_step. rewrite trim_norm.
  destruct (truthy (trim l)); simpl; [|done].
  unfold norm. by destruct (startsWith_hash (trim l)).
Qed.

Lemma fold_smart_step_norm lines st :
  fold_left smart_step (map norm lines) st = fold_left smart_step lines st.
Proof.
  revert st. induction lines as [|l lines IH]; intros st; [done|].
  simpl. by rewrite smart_step_norm, IH.
Qed.

Lemma parse_sections_norm lines :
  parse_sections (map norm lines) = parse_sections lines.
Proof. unfold parse_sections, smart_loop. by rewrite fold_smart_step_norm. Qed.

Lemma organize_smart_ext x y :
  map norm (split_lines x) = map norm (split_lines y) →
  organize_smart x = organize_smart y.
Proof.
  intros E. unfold organize_smart.
  by rewrite <- (parse_sections_norm (split_lines x)), E, parse_sections_norm.
Qed.

Lemma organize_flat_ext x y :
  map trim (split_lines x) = map trim (split_lines y) →
  organize_flat x = organize_flat y.
Proof. intros E. rewrite !organize_flat_spec. unfold rule_lines. by rewrite E. Qed.

Lemma split_assemble l rest :
  Forall no_lf (l :: map snd rest) →
  Forall2 same_line (l :: map snd rest) (split_lines (assemble l rest)).
Proof.
  revert l. induction rest as [|[e l'] rest IH]; intros l H.
  - simpl. apply Forall_cons in H as [H _].
    rewrite split_lines_no_lf by done. repeat constructor.
  - apply Forall_cons in H as [Hl H]. specialize (IH l' H).
    simpl. destruct e; simpl.
    + rewrite split_lines_lf by done. constructor; [by right|done].
    + rewrite split_lines_crlf by done. constructor; [by left|done].
Qed.

Lemma same_line_trim ls ls' :
  Forall2 same_line ls ls' → map trim ls' = map trim ls.
Proof.
  induction 1 as [|a b ls ls' [->| ->] _ IH]; [done|..]; simpl.
  - by rewrite IH.
  - by rewrite IH, trim_strip_cr.
Qed.

Lemma same_line_norm ls ls' :
  comments_without_cr ls → Forall2 same_line ls ls' →
  map norm ls' = map norm ls.
Proof.
  intros Hcr H. induction H as [|a b ls ls' Hab _ IH]; [done|].
  apply Forall_cons in Hcr as [Ha Hcr]. simpl. rewrite IH by done. f_equal.
  destruct Hab as [->| ->]; [done|].
  unfold norm. rewrite trim_strip_cr.
  destruct (startsWith_hash (trim a)) eqn:Hh; [|done].
  apply strip_cr_id. by apply Ha.
Qed.

Lemma ends_with_crb_false l : ends_with_crb l = false → ¬ ends_with_cr l.
Proof.
  intros H [r ->]. unfold ends_with_crb in H. by rewrite last_snoc in H.
Qed.

Lemma comments_without_cr_check lines :
  forallb (λ c, negb (startsWith_hash (trim c)) || negb (ends_with_crb c)) lines = true →
  comments_without_cr lines.
Proof.
  intros H. apply Forall_forall. intros c Hc Hh.
  rewrite forallb_forall in H. specialize (H c (proj1 (list_elem_of_In _ _) Hc)).
  rewrite Hh in H. simpl in H. apply ends_with_crb_false.
  by apply negb_true_iff.
Qed.

(** ** Code points *)

Lemma code_points_bmp s : without_high_surrogate s → code_points s = s.
Proof.
  induction 1 as [|c [|c' r] Hc _ IH]; [done..|].
  change (code_points (c :: c' :: r))
    with (if is_high_surrogate c && is_low_surrogate c'
          then (65536 + (c - 55296) * 1024 + (c' - 56320)) :: code_points r
          else c :: code_points (c' :: r)).
  by rewrite Hc, IH.
Qed.

Lemma Sorted_code_points ls :
  Forall without_high_surrogate ls → Sorted str_le ls → Sorted code_point_le ls.
Proof.
  intros Hb H. induction H as [|l ls _ IH Hhd]; [constructor|].
  apply Forall_cons in Hb as [Hl Hls]. constructor; [by apply IH|].
  destruct Hhd as [|l' ls' Hle]; constructor.
  apply Forall_cons in Hls as [Hl' _].
  unfold code_point_le. by rewrite !code_points_bmp.
Qed.

(** * The claims *)

(** C1. In Smart mode, after any lines read so far: a comment line
    read while the current section has a rule stores the current
    section and starts a new one whose comments are that line alone;
    a rule line read while the current section has no rule is added
    to that same section and nothing is stored; a blank line (empty
    after trimming) stores and resets the current section when it has
    content and changes nothing when it has none. *)
Theorem smart_section_breaks (lines : list jsstring) (line : jsstring) :
  let st := smart_loop lines in
  let st' := smart_loop (lines ++ [line]) in
  (startsWith_hash (trim line) = true → rules (currentSection st) ≠ [] →
   st' = mkParse (sections st ++ [currentSection st]) (mkSection [line] []))
  ∧ (trim line ≠ [] → startsWith_hash (trim line) = false →
     rules (currentSection st) = [] →
     st' = mkParse (sections st)
             (mkSection (comments (currentSection st)) [trim line]))
  ∧ (trim line = [] → has_content (currentSection st) = true →
     st' = mkParse (sections st ++ [currentSection st]) empty_section)
  ∧ (trim line = [] → has_content (currentSection st) = false → st' = st).
Proof.
  intros st st'. subst st'. unfold smart_loop. rewrite fold_left_app.
  fold (smart_loop lines). fold st. simpl. unfold smart_step.
  split_and!.
  - intros Hh Hr.
    assert (truthy (trim line) = true) as -> by (by destruct (trim line)).
    rewrite Hh. simpl. by rewrite (proj2 (length_pos_true _) Hr).
  - intros Hne Hh Hr. rewrite (proj2 (truthy_true _) Hne), Hh, Hr. done.
  - intros -> Hc. simpl. by rewrite Hc.
  - intros -> Hc. simpl. by rewrite Hc.
Qed.

(** The four transitions on concrete lines. *)
Lemma smart_section_breaks_witness :
  smart_loop ([js "a"] ++ [js "# New Section"])
  = mkParse [mkSection [] [js "a"]] (mkSection [js "# New Section"] [])
  ∧ smart_loop ([js " # Logs"] ++ [js " *.log "])
    = mkParse [] (mkSection [js " # Logs"] [js "*.log"])
  ∧ smart_loop ([js "# Logs"; js "*.log"] ++ [js "  "])
    = mkParse [mkSection [js "# Logs"] [js "*.log"]] empty_section
  ∧ smart_loop ([js "a"; js ""] ++ [js ""])
    = smart_loop [js "a"; js ""].
Proof.
  split_and!.
  - apply (proj1 (smart_section_breaks [js "a"] (js "# New Section")));
      [reflexivity | discriminate].
  - apply (proj1 (proj2 (smart_section_breaks [js " # Logs"] (js " *.log "))));
      [discriminate | reflexivity | reflexivity].
  - apply (proj1 (proj2 (proj2
             (smart_section_breaks [js "# Logs"; js "*.log"] (js "  ")))));
      reflexivity.
  - apply (proj2 (proj2 (proj2 (smart_section_breaks [js "a"; js ""] (js "")))));
      reflexivity.
Defined.

(** C2, as the claim states it, fails in Smart mode: a comment line
    keeps a carriage return at its end, which reads as part of the
    line ending when the output is organized again. *)
Lemma smart_not_idempotent :
  organize (organize (js "# a\r\r\nb\n") Smart) Smart
  ≠ organize (js "# a\r\r\nb\n") Smart.
Proof. vm_compute. discriminate. Qed.

(** C2, amended. Organizing twice gives what organizing once gives:
    in Flat mode for every input, in Smart mode for every input none
    of whose comment lines ends with a carriage return. *)
Theorem organize_idempotent (x : jsstring) (mode : SortMode) :
  (mode = Smart → comments_without_cr (split_lines x)) →
  organize (organize x mode) mode = organize x mode.
Proof.
  intros H. destruct mode; simpl.
  - apply organize_smart_idemp. by apply H.
  - rewrite (organize_flat_spec (organize_flat x)), flat_rule_lines.
    rewrite sort_set_fixed.
    + symmetry. apply organize_flat_spec.
    + apply js_sort_sorted.
    + apply js_sort_NoDup, array_from_set_NoDup.
Qed.

(** A text with both line endings whose comment lines end without
    carriage return. *)
Lemma organize_idempotent_witness :
  organize (organize (js " # Logs \r\n*.log\r\na\n\nb\n# x\nb") Smart) Smart
  = organize (js " # Logs \r\n*.log\r\na\n\nb\n# x\nb") Smart.
Proof.
  apply (organize_idempotent (js " # Logs \r\n*.log\r\na\n\nb\n# x\nb") Smart).
  intros _. apply comments_without_cr_check. vm_compute. reflexivity.
Defined.

(** C3. The first comment line of a section does not stay as it was
    written: the whitespace in front of it is gone in the output, so
    the input line is not a line of the output.  A comment line that
    is not the first of its section keeps its whitespace. *)
Theorem smart_trims_first_comment :
  organize (js "  # a\nx\n") Smart = js "# a\nx\n"
  ∧ js "  # a" ∈ split_lines (js "  # a\nx\n")
  ∧ (js "  # a" ∉ split_lines (organize (js "  # a\nx\n") Smart))
  ∧ organize (js "# h\n  # a\nx\n") Smart = js "# h\n  # a\nx\n".
Proof.
  split_and!.
  - vm_compute. reflexivity.
  - vm_compute. by left.
  - apply (bool_decide_unpack _). vm_compute. exact I.
  - vm_compute. reflexivity.
Qed.

(** C4, as the claim states it, fails: the default sort compares
    UTF-16 code units, and a character above U+FFFF, stored as two
    surrogates, comes before U+FF5E although its code point is
    larger. *)
Lemma flat_not_code_point_sorted :
  ¬ Sorted code_point_le
      (rule_lines (split_lines (organize [65374; LF; 55357; 56832; LF] Flat))).
Proof.
  assert (rule_lines (split_lines (organize [65374; LF; 55357; 56832; LF] Flat))
          = [[55357; 56832]; [65374]]) as -> by (vm_compute; reflexivity).
  intros H. inversion H as [|? ? _ Hhd]. inversion Hhd as [|? ? Hle].
  vm_compute in Hle. discriminate.
Qed.

(** C4, amended. The rule lines of every paragraph of the Smart
    output, and the rule lines of the whole Flat output, stand in
    non-decreasing lexicographic order of their UTF-16 code units,
    compared as plain numbers on the whole trimmed line; this is the
    order of their code points when none of them contains a high
    surrogate. *)
Theorem rules_sorted_code_units (content : jsstring) :
  let sorted_rules ls :=
    Sorted str_le ls
    ∧ (Forall without_high_surrogate ls → Sorted code_point_le ls) in
  Forall (λ p, sorted_rules (rule_lines p))
    (paragraphs (split_lines (organize content Smart)))
  ∧ sorted_rules (rule_lines (split_lines (organize content Flat))).
Proof.
  intros sorted_rules.
  assert (∀ ls, Sorted str_le ls → sorted_rules ls) as Hboth.
  { intros ls H. split; [done|]. intros Hb. by apply Sorted_code_points. }
  split; simpl.
  - apply (Forall_map rule_lines sorted_rules).
    rewrite smart_paragraph_rules. apply Forall_map, Forall_forall.
    intros s _. apply Hboth, out_rules_sorted.
  - apply Hboth. rewrite flat_rule_lines. apply js_sort_sorted.
Qed.

(** Rules in ASCII: the two orders agree. *)
Lemma rules_sorted_code_units_witness :
  Sorted code_point_le
    (rule_lines (split_lines (organize (js "b\n# keep\n!a\n/a\nB\n") Flat))).
Proof.
  apply (proj2 (proj2 (rules_sorted_code_units (js "b\n# keep\n!a\n/a\nB\n")))).
  apply (bool_decide_unpack _). vm_compute. exact I.
Defined.

(** C5. No rule line stands twice in a paragraph of the Smart output,
    nor twice in the Flat output. *)
Theorem rules_distinct (content : jsstring) :
  Forall (λ p, NoDup (rule_lines p))
    (paragraphs (split_lines (organize content Smart)))
  ∧ NoDup (rule_lines (split_lines (organize content Flat))).
Proof.
  split; simpl.
  - apply (Forall_map rule_lines NoDup).
    rewrite smart_paragraph_rules. apply Forall_map, Forall_forall.
    intros s _. apply out_rules_NoDup.
  - rewrite flat_rule_lines. apply js_sort_NoDup, array_from_set_NoDup.
Qed.

(** C6. Scenario D: a comment directly after a rule starts a new
    section; the rule [a] becomes a section without header, and one
    empty line stands between the two sections. *)
Theorem scenario_D :
  organize (js "a\n# New Section\nb\n") Smart = js "a\n\n# New Section\nb\n".
Proof. vm_compute. reflexivity. Qed.

(** C7. In Flat mode, when every line of the input is blank or a
    comment, the output is the text made of one line feed; and for
    every input, no line of the Flat output starts with [#]. *)
Theorem flat_without_rules (content : jsstring) :
  (Forall (λ l, trim l = [] ∨ startsWith_hash (trim l) = true)
     (split_lines content) →
   organize content Flat = [LF])
  ∧ Forall (λ l, startsWith_hash l = false)
      (split_lines (organize content Flat)).
Proof.
  split.
  - intros H. simpl. rewrite organize_flat_spec.
    assert (rule_lines (split_lines content) = []) as ->; [|done].
    unfold rule_lines. induction H as [|l ls Hl _ IH]; [done|].
    simpl. rewrite filter_cons, IH.
    assert (is_rule (trim l) = false) as ->; [|done].
    unfold is_rule. destruct Hl as [->| ->]; [done|apply andb_false_r].
  - simpl. rewrite flat_lines. pose proof (flat_rules_str content) as H.
    destruct (flat_rules content) as [|r rs]; [by repeat constructor|].
    apply Forall_app. split; [|by repeat constructor].
    eapply Forall_impl; [done|]. by intros r' (_ & _ & ?).
Qed.

(** A text of comments and blank lines only. *)
Lemma flat_without_rules_witness :
  organize (js "# only\n\n  \n  # comments\n") Flat = [LF].
Proof.
  apply (proj1 (flat_without_rules (js "# only\n\n  \n  # comments\n"))).
  apply (bool_decide_unpack _). vm_compute. exact I.
Defined.

(** C8, as the claim states it, fails in Smart mode: the output for
    a comment line that ends with a carriage return contains a
    carriage return and line feed pair, and differs from the output
    for the same lines separated by line feeds alone. *)
Lemma smart_keeps_carriage_return :
  has_crlf (organize (assemble (js "# a\r") [(EolCRLF, js "b"); (EolLF, [])]) Smart)
  = true
  ∧ organize (assemble (js "# a\r") [(EolCRLF, js "b"); (EolLF, [])]) Smart
    ≠ organize (assemble (js "# a\r") [(EolLF, js "b"); (EolLF, [])]) Smart.
Proof. split; vm_compute; [reflexivity | discriminate]. Qed.

(** C8, amended. For lines without line feed, the output does not
    depend on whether a line feed or a carriage return and line feed
    pair stands behind each line, and no text that is organized
    yields a carriage return directly in front of a line feed: in
    Flat mode always, in Smart mode when no comment line ends with a
    carriage return. *)
Theorem line_endings_insensitive (mode : SortMode) :
  (∀ l rest rest',
     map snd rest = map snd rest' →
     Forall no_lf (l :: map snd rest) →
     (mode = Smart → comments_without_cr (l :: map snd rest)) →
     organize (assemble l rest) mode = organize (assemble l rest') mode)
  ∧ (∀ content,
       (mode = Smart → comments_without_cr (split_lines content)) →
       has_crlf (organize content mode) = false).
Proof.
  split.
  - intros l rest rest' E Hlf Hcr.
    pose proof (split_assemble l rest Hlf) as H1.
    rewrite E in Hlf. pose proof (split_assemble l rest' Hlf) as H2.
    rewrite <- E in H2.
    destruct mode; simpl.
    + apply organize_smart_ext.
      rewrite (same_line_norm _ _ (Hcr eq_refl) H1).
      by rewrite (same_line_norm _ _ (Hcr eq_refl) H2).
    + apply organize_flat_ext.
      by rewrite (same_line_trim _ _ H1), (same_line_trim _ _ H2).
  - intros content Hcr. destruct mode; simpl.
    + apply smart_no_crlf. by apply Hcr.
    + apply flat_no_crlf.
Qed.

(** The same four lines with mixed and with plain line endings. *)
Lemma line_endings_insensitive_witness :
  organize (assemble (js "# Logs") [(EolCRLF, js "*.log"); (EolLF, js "a"); (EolCRLF, [])]) Smart
  = organize (assemble (js "# Logs") [(EolLF, js "*.log"); (EolLF, js "a"); (EolLF, [])]) Smart
  ∧ has_crlf (organize (js "# Logs\r\n*.log\na\r\n") Smart) = false.
Proof.
  split.
  - apply (proj1 (line_endings_insensitive Smart)).
    + reflexivity.
    + apply (bool_decide_unpack _). vm_compute. exact I.
    + intros _. apply comments_without_cr_check. vm_compute. reflexivity.
  - apply (proj2 (line_endings_insensitive Smart)).
    intros _. apply comments_without_cr_check. vm_compute. reflexivity.
Defined.

(** C9. For the empty text both modes return the text made of one
    line feed. *)
Theorem organize_empty :
  organize [] Smart = [LF] ∧ organize [] Flat = [LF].
Proof. split; vm_compute; reflexivity. Qed.

(** C10. Flat mode applied to the Smart output gives what Flat mode
    gives on the input itself: the rule lines of the Smart output are
    the rule lines of the input, up to order and repetition, and
    Flat mode drops every other line. *)
Theorem flat_absorbs_smart (x : jsstring) :
  organize (organize x Smart) Flat = organize x Flat
  ∧ (∀ r, r ∈ rule_lines (split_lines (organize x Smart))
          ↔ r ∈ rule_lines (split_lines x)).
Proof.
  split; [|intros r; apply smart_rule_lines_elem].
  simpl. rewrite !organize_flat_spec. f_equal. f_equal.
  apply sort_set_ext. intros r. apply smart_rule_lines_elem.
Qed.

(** * Further properties of the organizer *)

(** ** The comments of the Smart output *)

Lemma fold_smart_step_comments lines st :
  let st' := fold_left smart_step lines st in
  flat_map comments (sections st') ++ comments (currentSection st')
  = (flat_map comments (sections st) ++ comments (currentSection st))
    ++ filter (λ l, is_comment (trim l)) lines.
Proof.
  revert st. induction lines as [|l lines IH]; intros st; simpl.
  - by rewrite app_nil_r.
  - rewrite IH. clear IH. rewrite filter_cons.
    unfold smart_step, is_comment.
    destruct (truthy (trim l)) eqn:Ht; simpl.
    + destruct (startsWith_hash (trim l)) eqn:Hh; simpl; [|done].
      destruct (0 <? length (rules (currentSection st)))%nat; simpl.
      * rewrite flat_map_app. simpl. by rewrite !app_nil_r, <- !app_assoc.
      * by rewrite <- !app_assoc.
    + destruct (has_content (currentSection st)); simpl; [|done].
      rewrite flat_map_app. simpl. by rewrite !app_nil_r.
Qed.

Lemma parse_sections_comments lines :
  flat_map comments (parse_sections lines)
  = filter (λ l, is_comment (trim l)) lines.
Proof.
  pose proof (fold_smart_step_comments lines (mkParse [] empty_section)) as H.
  simpl in H. unfold parse_sections, smart_loop.
  destruct (has_content _) eqn:Hc.
  - rewrite flat_map_app. simpl. by rewrite app_nil_r.
  - apply has_content_false in Hc as [Hr _]. rewrite Hr, app_nil_r in H. done.
Qed.

Lemma comment_lines_raw lines :
  comment_lines lines = map trim (filter (λ l, is_comment (trim l)) lines).
Proof.
  unfold comment_lines. induction lines as [|l lines IH]; [done|].
  simpl. rewrite !filter_cons, IH. by destruct (is_comment (trim l)).
Qed.

Lemma comment_lines_app ls1 ls2 :
  comment_lines (ls1 ++ ls2) = comment_lines ls1 ++ comment_lines ls2.
Proof. unfold comment_lines. by rewrite map_app, filter_app. Qed.

Lemma comment_lines_strip ls : comment_lines (map strip_cr ls) = comment_lines ls.
Proof.
  unfold comment_lines. f_equal. rewrite map_map. apply map_ext.
  apply trim_strip_cr.
Qed.

Lemma comment_lines_blocks sls :
  comment_lines (blocks_lines sls) = flat_map comment_lines sls.
Proof.
  unfold blocks_lines. induction sls as [|sl sls IH]; [done|].
  simpl. rewrite !comment_lines_app, IH. f_equal. apply app_nil_r.
Qed.

Lemma comment_lines_comments cs :
  Forall comment_line cs → comment_lines cs = map trim cs.
Proof.
  unfold comment_lines. induction 1 as [|c cs [_ Hc] _ IH]; [done|].
  simpl. rewrite filter_cons, IH.
  by rewrite (proj2 (is_comment_true (trim c)) Hc).
Qed.

Lemma comment_lines_rules rs : Forall rule_str rs → comment_lines rs = [].
Proof.
  unfold comment_lines. induction 1 as [|r rs Hr _ IH]; [done|].
  simpl. rewrite filter_cons, IH, (rule_str_trim r Hr).
  assert (is_comment r = false) as ->; [|done].
  destruct Hr as (_ & _ & Hh). unfold is_comment. by rewrite Hh, andb_false_r.
Qed.

Lemma map_trim_map_first cs : map trim (map_first trimStart cs) = map trim cs.
Proof. destruct cs as [|c cs]; [done|]. simpl. by rewrite trim_trimStart. Qed.

Lemma map_trim_map_last cs : map trim (map_last trimEnd cs) = map trim cs.
Proof.
  destruct cs as [|c cs _] using rev_ind; [done|].
  rewrite map_last_snoc, !map_app. simpl. by rewrite trim_trimEnd.
Qed.

Lemma map_trim_out_comments s : map trim (out_comments s) = map trim (comments s).
Proof.
  unfold out_comments. destruct (rules s).
  - by rewrite map_trim_map_last, map_trim_map_first.
  - apply map_trim_map_first.
Qed.

Lemma comment_lines_section_lines s :
  wf_section s → comment_lines (section_lines s) = map trim (comments s).
Proof.
  intros (_ & Hc & Hr). unfold section_lines.
  rewrite comment_lines_app.
  rewrite (comment_lines_rules (out_rules s)) by by apply out_rules_str.
  rewrite app_nil_r, comment_lines_comments by by apply out_comments_ok.
  apply map_trim_out_comments.
Qed.

Lemma flat_map_map_trim (secs : list RuleSection) :
  flat_map (λ s, map trim (comments s)) secs = map trim (flat_map comments secs).
Proof.
  induction secs as [|s secs IH]; [done|]. simpl. by rewrite map_app, IH.
Qed.

(** Smart Sort keeps every comment line, in order, up to the
    whitespace around it: the trimmed comment lines of the output
    are the trimmed comment lines of the input. *)
Theorem smart_keeps_comments (content : jsstring) :
  comment_lines (split_lines (organize content Smart))
  = comment_lines (split_lines content).
Proof.
  simpl. rewrite smart_lines.
  rewrite (comment_lines_raw (split_lines content)).
  rewrite <- parse_sections_comments. fold (smart_sections content).
  pose proof (parse_sections_wf content) as H. fold (smart_sections content) in H.
  destruct (smart_sections content) as [|s secs] eqn:E; [done|].
  rewrite comment_lines_strip, comment_lines_blocks, <- flat_map_map_trim.
  clear E. induction H as [|s' secs' Hs' _ IH]; [done|].
  simpl. by rewrite IH, comment_lines_section_lines.
Qed.

(** ** The rules of the Flat output *)

(** Flat Sort loses no rule and invents none. *)
Theorem flat_keeps_rules (content : jsstring) (r : jsstring) :
  r ∈ rule_lines (split_lines (organize content Flat))
  ↔ r ∈ rule_lines (split_lines content).
Proof.
  simpl. rewrite flat_rule_lines. unfold flat_rules.
  by rewrite js_sort_elem, array_from_set_elem.
Qed.

(** ** Texts without comments *)

Lemma fold_blank_lines_empty bs S :
  Forall (λ l, trim l = []) bs →
  fold_left smart_step bs (mkParse S empty_section) = mkParse S empty_section.
Proof.
  induction 1 as [|b bs Hb _ IH]; [done|].
  simpl. unfold smart_step at 2. rewrite Hb. simpl. done.
Qed.

Lemma fold_rule_lines rs S cs r0 :
  Forall (λ l, is_rule (trim l) = true) rs →
  fold_left smart_step rs (mkParse S (mkSection cs r0))
  = mkParse S (mkSection cs (r0 ++ map trim rs)).
Proof.
  intros H. revert r0. induction H as [|r rs Hr _ IH]; intros r0.
  - simpl. by rewrite app_nil_r.
  - simpl. unfold smart_step at 2.
    apply is_rule_true in Hr as [Hne Hh].
    rewrite (proj2 (truthy_true _) Hne), Hh. simpl.
    rewrite IH. by rewrite <- app_assoc.
Qed.

Lemma fold_blank_lines_flush bs S cur :
  Forall (λ l, trim l = []) bs → has_content cur = true →
  parse_sections_of (fold_left smart_step bs (mkParse S cur)) = S ++ [cur].
Proof.
  intros H Hc. unfold parse_sections_of.
  destruct H as [|b bs Hb Hbs]; simpl.
  - by rewrite Hc.
  - assert (smart_step (mkParse S cur) b = mkParse (S ++ [cur]) empty_section) as ->.
    { unfold smart_step. rewrite Hb. simpl. by rewrite Hc. }
    by rewrite (fold_blank_lines_empty bs).
Qed.

Lemma rule_lines_blank bs : Forall (λ l, trim l = []) bs → rule_lines bs = [].
Proof.
  unfold rule_lines. induction 1 as [|b bs Hb _ IH]; [done|].
  simpl. by rewrite filter_cons, IH, Hb.
Qed.

Lemma rule_lines_rule_lines rs :
  Forall (λ l, is_rule (trim l) = true) rs → rule_lines rs = map trim rs.
Proof.
  unfold rule_lines. induction 1 as [|r rs Hr _ IH]; [done|].
  simpl. by rewrite filter_cons, IH, Hr.
Qed.

(** On a text without comment lines whose rule lines stand in one
    block (blank lines only in front of it and behind it), Smart
    Sort and Flat Sort give the same output. *)
Theorem smart_is_flat_without_comments
    (content : jsstring) (bs0 rs bs1 : list jsstring) :
  split_lines content = bs0 ++ rs ++ bs1 →
  Forall (λ l, trim l = []) bs0 →
  Forall (λ l, is_rule (trim l) = true) rs →
  Forall (λ l, trim l = []) bs1 →
  organize content Smart = organize content Flat.
Proof.
  intros E H0 Hr H1. simpl.
  rewrite organize_flat_spec, organize_smart_render.
  pose proof (parse_sections_wf content) as Hwf.
  unfold smart_sections in *. rewrite E in *.
  rewrite !rule_lines_app, (rule_lines_blank bs0), (rule_lines_blank bs1) by done.
  rewrite app_nil_r, rule_lines_rule_lines by done. simpl.
  change (parse_sections (bs0 ++ rs ++ bs1))
    with (parse_sections_of (smart_loop (bs0 ++ rs ++ bs1))) in *.
  unfold smart_loop in *. rewrite !fold_left_app in *.
  rewrite fold_blank_lines_empty in * by done. unfold empty_section in *.
  rewrite fold_rule_lines in * by done. simpl in *.
  destruct rs as [|r rs].
  - fold empty_section in *. rewrite fold_blank_lines_empty in * by done. done.
  - rewrite fold_blank_lines_flush in * by done. simpl in *.
    apply Forall_cons in Hwf as [Hwf _].
    rewrite (render_section_lines _ Hwf). reflexivity.
Qed.

(** A text whose lines are the given ones. *)
Lemma smart_is_flat_without_comments_witness :
  organize (js "\nb\na\n\n") Smart = organize (js "\nb\na\n\n") Flat.
Proof.
  apply (smart_is_flat_without_comments (js "\nb\na\n\n")
           [[]] [js "b"; js "a"] [[]; []]).
  - reflexivity.
  - apply (bool_decide_unpack _). vm_compute. exact I.
  - apply (bool_decide_unpack _). vm_compute. exact I.
  - apply (bool_decide_unpack _). vm_compute. exact I.
Defined.

(** ** The blank lines of the Smart output *)

Lemma double_blank_run sl rest :
  sl ≠ [] → Forall nonblank sl →
  double_blank (sl ++ [] :: rest) = double_blank ([] :: rest).
Proof.
  intros Hne H. induction H as [|a sl Ha Hsl IH]; [done|]. clear Hne.
  apply (truthy_true (trim a)) in Ha.
  destruct sl as [|a' sl'].
  - change (double_blank ([a] ++ [] :: rest))
      with ((negb (truthy (trim a)) && negb (truthy (trim [])))
            || double_blank ([] :: rest)).
    by rewrite Ha.
  - change (double_blank ((a :: a' :: sl') ++ [] :: rest))
      with ((negb (truthy (trim a)) && negb (truthy (trim a')))
            || double_blank ((a' :: sl') ++ [] :: rest)).
    rewrite Ha. simpl. by apply IH.
Qed.

Lemma double_blank_after_blank l r :
  nonblank l → double_blank ([] :: l :: r) = double_blank (l :: r).
Proof.
  intros H. apply (truthy_true (trim l)) in H.
  change (double_blank ([] :: l :: r))
    with ((negb (truthy (trim [])) && negb (truthy (trim l)))
          || double_blank (l :: r)).
  by rewrite H, andb_false_r.
Qed.

Lemma double_blank_blocks sls :
  Forall (λ sl, sl ≠ [] ∧ Forall nonblank sl) sls →
  double_blank (blocks_lines sls) = false.
Proof.
  unfold blocks_lines. induction 1 as [|sl sls [Hne Hnb] Hsls IH]; [done|].
  cbn [flat_map]. rewrite <- app_assoc.
  change ([[]] ++ flat_map (λ sl0, sl0 ++ [[]]) sls)
    with ([] :: flat_map (λ sl0, sl0 ++ [[]]) sls).
  rewrite double_blank_run by done.
  destruct Hsls as [|sl' sls' [Hne' Hnb'] _]; [done|].
  destruct sl' as [|l sl']; [done|].
  apply Forall_cons in Hnb' as [Hl _].
  cbn [flat_map] in *. rewrite <- app_assoc in *.
  change ((l :: sl') ++ [[]] ++ flat_map (λ sl0, sl0 ++ [[]]) sls')
    with (l :: (sl' ++ [[]] ++ flat_map (λ sl0, sl0 ++ [[]]) sls')) in *.
  by rewrite double_blank_after_blank.
Qed.

Lemma last_blocks_lines sls : sls ≠ [] → last (blocks_lines sls) = Some [].
Proof.
  intros H. destruct (blocks_lines_snoc sls H) as [ls ->]. apply last_snoc.
Qed.

Lemma smart_sections_blank content :
  Forall (λ l, trim l = []) (split_lines content) → smart_sections content = [].
Proof.
  intros H. unfold smart_sections, parse_sections, smart_loop.
  by rewrite fold_blank_lines_empty.
Qed.

Lemma smart_sections_nonblank content :
  Exists (λ l, trim l ≠ []) (split_lines content) → smart_sections content ≠ [].
Proof.
  intros H E. unfold smart_sections in E.
  pose proof (parse_sections_rules (split_lines content)) as Hr.
  pose proof (parse_sections_comments (split_lines content)) as Hc.
  rewrite E in Hr, Hc. simpl in *.
  apply Exists_exists in H as (l & Hl & Hne).
  destruct (startsWith_hash (trim l)) eqn:Hh.
  - assert (l ∈ filter (λ l, is_comment (trim l)) (split_lines content)) as Hin.
    { apply list_elem_of_filter. split; [|done].
      apply Is_true_true, is_comment_true. done. }
    rewrite <- Hc in Hin. by apply elem_of_nil in Hin.
  - assert (trim l ∈ rule_lines (split_lines content)) as Hin.
    { apply rule_lines_elem. exists l. split_and!; [done..|].
      by apply is_rule_true. }
    rewrite <- Hr in Hin. by apply elem_of_nil in Hin.
Qed.

(** Smart Sort gives the text of one line feed when every line of
    the input is blank.  Otherwise its output starts with a line
    that is not blank, ends with a line feed, and has no two blank
    lines in a row: blank lines in front are dropped and every run
    of blank lines becomes one. *)
Theorem smart_blank_lines (content : jsstring) :
  let out := split_lines (organize content Smart) in
  (Forall (λ l, trim l = []) (split_lines content) →
   organize content Smart = [LF])
  ∧ (Exists (λ l, trim l ≠ []) (split_lines content) →
     (∃ l ls, out = l :: ls ∧ trim l ≠ [])
     ∧ last out = Some []
     ∧ double_blank out = false).
Proof.
  intros out. subst out. simpl. split.
  - intros H. by apply organize_smart_empty, smart_sections_blank.
  - intros H%smart_sections_nonblank. rewrite smart_lines.
    pose proof (parse_sections_wf content) as Hwf.
    fold (smart_sections content) in Hwf.
    destruct (smart_sections content) as [|s secs] eqn:E; [done|].
    rewrite map_blocks_lines, map_map by done.
    assert (Forall (λ sl, sl ≠ [] ∧ Forall nonblank sl)
              (map (λ x, map strip_cr (section_lines x)) (s :: secs))) as Hsh.
    { apply Forall_map. eapply Forall_impl; [done|]. intros s' Hs'. simpl. split.
      - pose proof (section_lines_nonempty s' Hs'). by destruct (section_lines s').
      - apply Forall_map. eapply Forall_impl; [by apply section_lines_nonblank|].
        intros l Hl. simpl. unfold nonblank. by rewrite trim_strip_cr. }
    split_and!.
    + apply Forall_cons in Hsh as [[Hne Hnb] _]. simpl.
      destruct (map strip_cr (section_lines s)) as [|l ls]; [done|].
      apply Forall_cons in Hnb as [Hl _]. simpl. eauto.
    + by apply last_blocks_lines.
    + by apply double_blank_blocks.
Qed.

(** A text with blank lines in front and in between. *)
Lemma smart_blank_lines_witness :
  organize (js " \n\n") Smart = [LF]
  ∧ double_blank (split_lines (organize (js "\n\na\n\n\n# c\nb\n\n") Smart)) = false.
Proof.
  split.
  - apply (proj1 (smart_blank_lines (js " \n\n"))).
    apply (bool_decide_unpack _). vm_compute. exact I.
  - apply (proj2 (smart_blank_lines (js "\n\na\n\n\n# c\nb\n\n"))).
    apply (bool_decide_unpack _). vm_compute. exact I.
Defined.

(** * Properties of the commands that edit single rules *)

(** ** Texts and their lines *)



Lemma split_lines_join ls l :
  Forall no_lf (ls ++ [l]) →
  split_lines (join [LF] (ls ++ [l])) = map strip_cr ls ++ [l].
Proof.
  induction ls as [|l0 ls IH]; intros H.
  - simpl in *. apply Forall_cons in H as [H _]. by apply split_lines_no_lf.
  - simpl in H. apply Forall_cons in H as [H0 H].
    change ((l0 :: ls) ++ [l]) with ([l0] ++ (ls ++ [l])).
    rewrite join_app; [|done|by destruct ls]. simpl.
    by rewrite split_lines_lf, IH.
Qed.








Lemma nonblank_lines_strip ls :
  nonblank_lines (map strip_cr ls) = nonblank_lines ls.
Proof.
  unfold nonblank_lines. f_equal. rewrite map_map. apply map_ext.
  apply trim_strip_cr.
Qed.


(** ** Adding a pattern *)








(** ** Removing a path *)

Lemma keeps_line_strip rel l : keeps_line rel (strip_cr l) = keeps_line rel l.
Proof. unfold keeps_line. by rewrite trim_strip_cr. Qed.

Lemma keeps_line_trim rel l : keeps_line rel (trim l) = keeps_line rel l.
Proof. unfold keeps_line. by rewrite trim_idemp. Qed.

Lemma keeps_line_nil rel : rel ≠ [] → keeps_line rel [] = true.
Proof.
  intros H. unfold keeps_line. change (trim []) with (@nil N).
  rewrite !bool_decide_eq_false_2; [done|..].
  - by destruct rel.
  - by destruct rel.
  - done.
  - congruence.
Qed.


Lemma filter_all_kept rel ls :
  Forall (λ l, keeps_line rel l = true) ls →
  filter (λ line, keeps_line rel line) ls = ls.
Proof.
  induction 1 as [|l ls Hl _ IH]; [done|].
  by rewrite filter_cons, Hl, IH.
Qed.

Lemma filter_kept_Forall rel ls :
  Forall (λ l, keeps_line rel l = true) (filter (λ line, keeps_line rel line) ls).
Proof.
  apply Forall_forall. intros l [H _]%list_elem_of_filter. by apply Is_true_true.
Qed.

Lemma filter_length_eq rel ls :
  length (filter (λ line, keeps_line rel line) ls) = length ls →
  filter (λ line, keeps_line rel line) ls = ls.
Proof.
  induction ls as [|l ls IH]; [done|].
  rewrite filter_cons. destruct (keeps_line rel l); simpl.
  - intros [= H]. by rewrite IH.
  - intros H. pose proof (length_filter (λ line, keeps_line rel line) ls). lia.
Qed.

(** The lines of the text written from a list of lines, up to
    carriage returns at their ends. *)
Lemma split_lines_join_any ls :
  Forall no_lf ls →
  ∃ ls', split_lines (join [LF] ls) = ls'
         ∧ map trim ls' = match ls with [] => [[]] | _ => map trim ls end.
Proof.
  intros H. destruct ls as [|l ls _] using rev_ind.
  - by exists [[]].
  - exists (map strip_cr ls ++ [l]). split; [by apply split_lines_join|].
    rewrite !map_app, map_map. simpl.
    rewrite (map_ext (λ x, trim (strip_cr x)) trim) by apply trim_strip_cr.
    by destruct ls.
Qed.

Lemma Forall_keeps_trim rel ls ls' :
  map trim ls' = map trim ls →
  Forall (λ l, keeps_line rel l = true) ls →
  Forall (λ l, keeps_line rel l = true) ls'.
Proof.
  intros E H. revert ls' E. induction H as [|l ls Hl _ IH]; intros [|l' ls'] E;
    try done.
  simpl in E. injection E as E1 E2. constructor; [|by apply IH].
  rewrite <- keeps_line_trim, E1, keeps_line_trim. done.
Qed.

Lemma filter_no_lf rel ls :
  Forall no_lf ls → Forall no_lf (filter (λ line, keeps_line rel line) ls).
Proof.
  rewrite !Forall_forall. intros H l [_ Hl]%list_elem_of_filter. by apply H.
Qed.

(** After a path was removed, no line of the file spells it any more
    (as [p], [/p], [p/] or [/p/], whitespace around the line
    ignored), and removing it again reports that nothing was found
    and leaves the file alone.  The path must not be empty. *)
Theorem remove_path_complete (content rel c' : jsstring) :
  rel ≠ [] →
  removeFromGitignore content rel = Some c' →
  Forall (λ l, keeps_line rel l = true) (split_lines c')
  ∧ removeFromGitignore c' rel = None.
Proof.
  intros Hrel. unfold removeFromGitignore.
  destruct (_ =? _)%nat; [done|]. intros [= <-].
  pose proof (filter_no_lf rel _ (split_lines_no_lf_lines content)) as Hlf.
  pose proof (filter_kept_Forall rel (split_lines content)) as Hk.
  destruct (split_lines_join_any _ Hlf) as (ls' & E & Ht).
  assert (Forall (λ l, keeps_line rel l = true) ls') as Hk'.
  { destruct (filter _ (split_lines content)) as [|l ls] eqn:Ef.
    - destruct ls' as [|l1 [|l2 ls']]; try done.
      injection Ht as Ht. apply Forall_singleton.
      rewrite <- keeps_line_trim, Ht. by apply keeps_line_nil.
    - by apply (Forall_keeps_trim rel (l :: ls)). }
  rewrite E. split; [done|].
  by rewrite filter_all_kept, Nat.eqb_refl.
Qed.

(** Removing a path that stands twice, once with a slash. *)
Lemma remove_path_complete_witness :
  removeFromGitignore (js "a\nb\n") (js "build") = None.
Proof.
  assert (js "build" ≠ []) as Hne by discriminate.
  apply (proj2 (remove_path_complete (js "a\n build \nb\n/build/\n")
                  (js "build") (js "a\nb\n") Hne eq_refl)).
Defined.

Lemma nonblank_lines_trim_eq ls ls' :
  map trim ls' = map trim ls → nonblank_lines ls' = nonblank_lines ls.
Proof. unfold nonblank_lines. by intros ->. Qed.

Lemma nonblank_lines_filter rel ls :
  nonblank_lines (filter (λ line, keeps_line rel line) ls)
  = filter (λ t, keeps_line rel t) (nonblank_lines ls).
Proof.
  unfold nonblank_lines. induction ls as [|l ls IH]; [done|].
  simpl. rewrite !filter_cons.
  destruct (keeps_line rel l) eqn:Hk; simpl.
  - rewrite filter_cons. destruct (truthy (trim l)); simpl; [|done].
    by rewrite filter_cons, keeps_line_trim, Hk, IH.
  - destruct (truthy (trim l)); simpl; [|done].
    by rewrite filter_cons, keeps_line_trim, Hk.
Qed.

(** Removing a path keeps every other line, in order: up to blank
    lines and the whitespace around lines, the lines of the new file
    are the old lines that do not spell the path. *)
Theorem remove_path_keeps_others (content rel c' : jsstring) :
  removeFromGitignore content rel = Some c' →
  nonblank_lines (split_lines c')
  = filter (λ t, keeps_line rel t) (nonblank_lines (split_lines content)).
Proof.
  unfold removeFromGitignore.
  destruct (_ =? _)%nat; [done|]. intros [= <-].
  pose proof (filter_no_lf rel _ (split_lines_no_lf_lines content)) as Hlf.
  destruct (split_lines_join_any _ Hlf) as (ls' & -> & Ht).
  rewrite <- nonblank_lines_filter.
  destruct (filter _ (split_lines content)) as [|l ls] eqn:Ef.
  - destruct ls' as [|l1 [|l2 ls']]; try done. injection Ht as Ht.
    unfold nonblank_lines. simpl. by rewrite filter_cons, Ht.
  - by apply nonblank_lines_trim_eq.
Qed.

Lemma remove_path_keeps_others_witness :
  nonblank_lines (split_lines (js "# x\r\na\n\nb"))
  = filter (λ t, keeps_line (js "build") t)
      (nonblank_lines (split_lines (js "# x\r\r\n build/\na\n\n/build\nb"))).
Proof.
  apply (remove_path_keeps_others (js "# x\r\r\n build/\na\n\n/build\nb") (js "build")).
  reflexivity.
Defined.

(** ** Adding a path and removing it again *)





(** ** Removing the rule at a line *)

Lemma map_trim_delete i (ls : list jsstring) :
  map trim (delete i ls) = delete i (map trim ls).
Proof.
  revert i. induction ls as [|l ls IH]; intros [|i]; simpl; try done.
  by rewrite IH.
Qed.

Lemma delete_no_lf i ls : Forall no_lf ls → Forall no_lf (delete i ls).
Proof.
  intros H. revert i. induction H as [|l ls Hl Hls IH]; intros [|i]; simpl;
    try done. constructor; [done|apply IH].
Qed.

Lemma removeRuleAt_in_range (content : jsstring) (i : Z) :
  (0 ≤ i < Z.of_nat (length (split_lines content)))%Z →
  (2 ≤ length (split_lines content))%nat →
  ∃ c', removeRuleAt content (Some i) = Some c'
        ∧ map trim (split_lines c')
          = delete (Z.to_nat i) (map trim (split_lines content)).
Proof.
  unfold removeRuleAt. intros Hi Hlen.
  rewrite (proj2 (andb_true_iff _ _)) by (split; lia).
  eexists. split; [done|].
  pose proof (delete_no_lf (Z.to_nat i) _ (split_lines_no_lf_lines content)) as Hlf.
  destruct (split_lines_join_any _ Hlf) as (ls' & -> & Ht).
  rewrite <- map_trim_delete.
  destruct (delete (Z.to_nat i) (split_lines content)) as [|l ls] eqn:E; [|done].
  apply (f_equal length) in E. rewrite length_delete in E.
  - simpl in E. lia.
  - apply lookup_lt_is_Some. lia.
Qed.

(** "Remove Rule" takes out the line with the given index: when the
    index is one of the lines of a file of at least two lines, the
    lines of the new file are, up to the whitespace around them, the
    old lines without that one.  An index that is not one of the
    lines, or no number, leaves the file alone. *)
Theorem remove_rule_at_line (content : jsstring) (i : Z) :
  ((0 ≤ i < Z.of_nat (length (split_lines content)))%Z →
   (2 ≤ length (split_lines content))%nat →
   ∃ c', removeRuleAt content (Some i) = Some c'
         ∧ map trim (split_lines c')
           = delete (Z.to_nat i) (map trim (split_lines content)))
  ∧ (¬ (0 ≤ i < Z.of_nat (length (split_lines content)))%Z →
     removeRuleAt content (Some i) = None)
  ∧ removeRuleAt content None = None.
Proof.
  split_and!; [apply removeRuleAt_in_range| |done].
  unfold removeRuleAt. intros Hi. destruct (_ && _) eqn:E; [|done].
  apply andb_true_iff in E as [E1 E2]. lia.
Qed.

(** Git reports line 2 of a file of four lines. *)
Lemma remove_rule_at_line_witness :
  ∃ c', removeRuleAt (js "# Logs\r\n*.log\r\nbuild/\n") (Some 1%Z) = Some c'
        ∧ map trim (split_lines c') = [js "# Logs"; js "build/"; []].
Proof.
  apply (proj1 (remove_rule_at_line (js "# Logs\r\n*.log\r\nbuild/\n") 1)).
  - replace (length (split_lines (js "# Logs\r\n*.log\r\nbuild/\n")))
      with 4%nat by reflexivity. lia.
  - replace (length (split_lines (js "# Logs\r\n*.log\r\nbuild/\n")))
      with 4%nat by reflexivity. lia.
Defined.

(** * Properties of the completion query *)

Lemma split_on_nonempty c s : split_on c s ≠ [].
Proof.
  destruct s as [|d r]; [done|]. simpl.
  destruct (d =? c); [done|]. by destruct (split_on c r).
Qed.

Lemma split_on_free c s : c ∉ s → split_on c s = [s].
Proof.
  induction s as [|d s IH]; [done|]. rewrite not_elem_of_cons. intros [Hd Hs].
  simpl. rewrite (proj2 (N.eqb_neq d c)) by done. by rewrite IH.
Qed.

Lemma split_on_app c l rest :
  c ∉ l → split_on c (l ++ c :: rest) = l :: split_on c rest.
Proof.
  induction l as [|d l IH]; intros H.
  - simpl. by rewrite N.eqb_refl.
  - rewrite not_elem_of_cons in H. destruct H as [Hd Hl].
    simpl. rewrite (proj2 (N.eqb_neq d c)) by done. by rewrite IH.
Qed.

(** Splitting undoes joining when no part contains the separator. *)
Lemma split_on_join c ls l :
  Forall (λ x, c ∉ x) (ls ++ [l]) →
  split_on c (join [c] (ls ++ [l])) = ls ++ [l].
Proof.
  induction ls as [|l0 ls IH]; intros H.
  - simpl in *. apply Forall_cons in H as [H _]. by apply split_on_free.
  - simpl in H. apply Forall_cons in H as [H0 H].
    change ((l0 :: ls) ++ [l]) with ([l0] ++ (ls ++ [l])).
    rewrite join_app; [|done|by destruct ls]. simpl.
    by rewrite split_on_app, IH.
Qed.

Lemma split_on_parts_free c s : Forall (λ x, c ∉ x) (split_on c s).
Proof.
  induction s as [|d s IH]; simpl.
  - apply Forall_singleton, not_elem_of_nil.
  - destruct (d =? c) eqn:E.
    + constructor; [apply not_elem_of_nil|done].
    + apply N.eqb_neq in E. destruct IH as [|l ls Hl Hls]; simpl.
      * apply Forall_singleton. rewrite list_elem_of_singleton. congruence.
      * constructor; [|done]. rewrite not_elem_of_cons. done.
Qed.

Lemma includes_char_true c s : includes_char c s = true ↔ c ∈ s.
Proof.
  unfold includes_char. rewrite existsb_exists. split.
  - intros (d & Hd & ->%N.eqb_eq). by apply list_elem_of_In.
  - intros H. exists c. split; [by apply list_elem_of_In|apply N.eqb_refl].
Qed.

Lemma includes_char_false c s : includes_char c s = false ↔ c ∉ s.
Proof.
  rewrite <- includes_char_true. by destruct (includes_char c s).
Qed.

Lemma last_last_snoc {A} (ls : list A) l d : List.last (ls ++ [l]) d = l.
Proof. apply last_last. Qed.

Lemma join_has_sep c ls l :
  ls ≠ [] → c ∈ join [c] (ls ++ [l]).
Proof.
  destruct ls as [|l0 ls]; [done|]. intros _.
  change ((l0 :: ls) ++ [l]) with ([l0] ++ (ls ++ [l])).
  rewrite join_app; [|done|by destruct ls].
  rewrite !elem_of_app. right. left. by left.
Qed.

Lemma trimStart_fixed s :
  match s with c :: _ => is_ws c = false | [] => True end → trimStart s = s.
Proof. destruct s as [|c r]; [done|]. intros H. by apply trimStart_keep. Qed.

Lemma completion_query_clean sep body :
  match body with
  | c :: _ => is_ws c = false ∧ c ≠ BANG ∧ c ≠ SLASH
  | [] => True
  end →
  ∀ w (negation anchor : bool),
    all_ws w →
    completion_query sep
      (w ++ (if negation then [BANG] else [])
         ++ (if anchor then [SLASH] else []) ++ body)
    = if includes_char SLASH body
      then (Some (join sep (removelast (split_on SLASH body))),
            List.last (split_on SLASH body) [])
      else (None, body).
Proof.
  intros Hb w negation anchor Hw. unfold completion_query.
  rewrite trimStart_ws by done.
  assert (startsWith_char BANG body = false ∧ startsWith_char SLASH body = false
          ∧ trimStart body = body) as (Hb1 & Hb2 & Hb3).
  { destruct body as [|c r]; [done|]. destruct Hb as (Hws & H1 & H2).
    simpl. rewrite Hws. by rewrite !(proj2 (N.eqb_neq _ _)). }
  destruct negation, anchor; simpl; rewrite ?Hb3, ?Hb1, ?Hb2; done.
Qed.

(** The query of a completion: the prefix never contains a slash;
    and for a text made of whitespace, an optional [!], an optional
    [/] and path segments joined by slashes, the directory part is
    the segments but the last, joined by the separator of the
    platform, and the prefix is the last segment.  Negation and
    anchor make no difference. *)
Theorem completion_query_path (sep lineText : jsstring) :
  (SLASH ∉ (completion_query sep lineText).2)
  ∧ (∀ w (negation anchor : bool) ds p,
       lineText = w ++ (if negation then [BANG] else [])
                    ++ (if anchor then [SLASH] else [])
                    ++ join [SLASH] (ds ++ [p]) →
       all_ws w →
       Forall (λ x, SLASH ∉ x) (ds ++ [p]) →
       match join [SLASH] (ds ++ [p]) with
       | c :: _ => is_ws c = false ∧ c ≠ BANG ∧ c ≠ SLASH
       | [] => True
       end →
       completion_query sep lineText
       = (match ds with [] => None | _ :: _ => Some (join sep ds) end, p)).
Proof.
  split.
  - unfold completion_query.
    set (c1 := trimStart lineText).
    set (c2 := if startsWith_char BANG c1 then substring1 c1 else c1).
    set (c3 := if startsWith_char SLASH c2 then substring1 c2 else c2).
    destruct (includes_char SLASH c3) eqn:E; simpl.
    + pose proof (split_on_parts_free SLASH c3) as H.
      pose proof (split_on_nonempty SLASH c3) as Hne.
      destruct (split_on SLASH c3) as [|l ls _] using rev_ind; [done|].
      rewrite last_last. by apply Forall_app in H as [_ [H _]%Forall_cons].
    + by apply includes_char_false.
  - intros w negation anchor ds p -> Hw Hfree Hb.
    rewrite (completion_query_clean sep _ Hb w negation anchor Hw).
    destruct ds as [|d ds].
    + simpl in *. apply Forall_cons in Hfree as [Hp _].
      by rewrite (proj2 (includes_char_false SLASH p)).
    + rewrite (proj2 (includes_char_true SLASH _)) by by apply join_has_sep.
      rewrite split_on_join by done. by rewrite removelast_last, last_last.
Qed.

(** The text [  !/src/gen/co] on a platform with backslashes. *)
Lemma completion_query_path_witness :
  completion_query (js "\") (js "  !/src/gen/co")
  = (Some (js "src\gen"), js "co").
Proof.
  apply (proj2 (completion_query_path (js "\") (js "  !/src/gen/co"))
           (js "  ") true true [js "src"; js "gen"] (js "co")).
  - reflexivity.
  - apply (bool_decide_unpack _). vm_compute. exact I.
  - apply (bool_decide_unpack _). vm_compute. exact I.
  - vm_compute. split_and!; [reflexivity|discriminate|discriminate].
Defined.

(** * Properties of reading the answer of git *)

Lemma ws_dots_head s : ws_dots s = true → ∃ c r, s = c :: r ∧ is_ws c = true.
Proof.
  destruct s as [|c r]; [done|]. simpl. intros [H _]%andb_true_iff. eauto.
Qed.

Lemma tail_scan_none pre s :
  (∀ s', s' `suffix_of` s → ws_dots s' = false) → tail_scan pre s = None.
Proof.
  revert pre. induction s as [|c r IH]; intros pre H; [done|].
  cbn [tail_scan]. rewrite (IH (pre ++ [c])).
  - destruct (dot c); by rewrite (H (c :: r)).
  - intros s' Hs'. apply H. by apply suffix_cons_r.
Qed.

Lemma no_ws_suffix path s' :
  Forall (λ c, is_ws c = false) path → s' `suffix_of` path → ws_dots s' = false.
Proof.
  intros H [k ->]. apply Forall_app in H as [_ H].
  destruct s' as [|c r]; [done|]. apply Forall_cons in H as [Hc _].
  simpl. by rewrite Hc.
Qed.

(** Group 3 is the text up to the last whitespace. *)
Lemma tail_scan_pattern pre pat sp path :
  Forall (λ c, dot c = true) pat →
  is_ws sp = true → dot sp = true →
  Forall (λ c, is_ws c = false) path → Forall (λ c, dot c = true) path →
  tail_scan pre (pat ++ sp :: path) = Some (pre ++ pat).
Proof.
  intros Hpat Hsp Hsp' Hpath Hpath'. revert pre.
  induction Hpat as [|c pat Hc _ IH]; intros pre.
  - simpl. rewrite Hsp', Hsp.
    rewrite tail_scan_none by (intros s' Hs'; by eapply no_ws_suffix).
    rewrite (proj2 (forallb_forall dot path)); [by rewrite app_nil_r|].
    intros x Hx%list_elem_of_In. by apply (proj1 (Forall_forall _ _) Hpath').
  - simpl. rewrite Hc, IH. by rewrite <- app_assoc.
Qed.

Lemma take_while_digits ds c r :
  Forall (λ d, is_digit d = true) ds → is_digit c = false →
  take_while is_digit (ds ++ c :: r) = ds.
Proof.
  intros H Hc. induction H as [|d ds Hd _ IH]; simpl.
  - by rewrite Hc.
  - by rewrite Hd, IH.
Qed.

Lemma colon_digits_colon_Some ds tail g :
  ds ≠ [] → Forall (λ d, is_digit d = true) ds →
  tail_scan [] tail = Some g →
  colon_digits_colon (COLON :: ds ++ COLON :: tail) = Some (ds, g).
Proof.
  intros Hne Hds Hg. unfold colon_digits_colon.
  rewrite N.eqb_refl, take_while_digits by done.
  rewrite (proj2 (length_pos_true ds)) by done.
  by rewrite drop_app_length, N.eqb_refl, Hg.
Qed.

Lemma take_while_suffix f s : drop (length (take_while f s)) s `suffix_of` s.
Proof. apply suffix_drop. Qed.

(** The expression behind group 1 needs a second colon. *)
Lemma colon_digits_colon_None r :
  COLON ∉ r → colon_digits_colon (COLON :: r) = None.
Proof.
  intros H. unfold colon_digits_colon. rewrite N.eqb_refl.
  destruct (0 <? _)%nat; [|done].
  pose proof (suffix_drop r (length (take_while is_digit r))) as [k Hk].
  destruct (drop _ r) as [|c' r'] eqn:E'; [done|].
  destruct (c' =? COLON) eqn:Ec; [|done].
  apply N.eqb_eq in Ec as ->. destruct H.
  rewrite Hk, elem_of_app. right. by left.
Qed.

Lemma colon_digits_colon_suffix ds tail s' :
  Forall (λ d, is_digit d = true) ds → COLON ∉ tail →
  s' `suffix_of` ds ++ COLON :: tail →
  colon_digits_colon s' = None.
Proof.
  intros Hds Htail. induction Hds as [|d ds Hd _ IH]; intros Hs'.
  - simpl in Hs'. destruct s' as [|c r]; [done|].
    apply suffix_cons_inv in Hs' as [[= -> ->]|[k ->]].
    + by apply colon_digits_colon_None.
    + simpl. destruct (c =? COLON) eqn:Ec; [|done].
      apply N.eqb_eq in Ec as ->. destruct Htail.
      rewrite elem_of_app. right. by left.
  - simpl in Hs'. destruct s' as [|c r]; [done|].
    apply suffix_cons_inv in Hs' as [[= -> ->]|Hs'].
    + simpl. destruct (d =? COLON) eqn:Ec; [|done].
      apply N.eqb_eq in Ec as ->. done.
    + by apply IH.
Qed.

Lemma regex_scan_none pre s :
  (∀ s', s' `suffix_of` s → colon_digits_colon s' = None) →
  regex_scan pre s = None.
Proof.
  revert pre. induction s as [|c r IH]; intros pre H; [done|].
  cbn [regex_scan]. rewrite (IH (pre ++ [c])).
  - rewrite (H (c :: r)) by done. destruct (dot c), pre; done.
  - intros s' Hs'. apply H. by apply suffix_cons_r.
Qed.

Lemma regex_scan_source pre src ds tail g :
  pre ++ src ≠ [] →
  Forall (λ c, dot c = true) src →
  ds ≠ [] → Forall (λ d, is_digit d = true) ds →
  COLON ∉ tail → tail_scan [] tail = Some g →
  regex_scan pre (src ++ COLON :: ds ++ COLON :: tail) = Some (pre ++ src, ds, g).
Proof.
  intros Hne Hsrc Hds1 Hds2 Htail Hg. revert pre Hne.
  induction Hsrc as [|c src Hc _ IH]; intros pre Hne.
  - rewrite app_nil_r in *. cbn [app regex_scan].
    rewrite regex_scan_none
      by (intros s' Hs'; by eapply colon_digits_colon_suffix).
    rewrite (colon_digits_colon_Some ds tail g) by done.
    destruct (dot COLON), pre; done.
  - cbn [app regex_scan]. rewrite Hc, IH; [by rewrite <- app_assoc|].
    by destruct pre.
Qed.

Lemma check_ignore_match_answer (src digits pat path : jsstring) (sp : N) :
  src ≠ [] → digits ≠ [] →
  Forall (λ c, dot c = true) (src ++ pat ++ path) →
  Forall (λ d, is_digit d = true) digits →
  COLON ∉ pat ++ path →
  Forall (λ c, is_ws c = false) path →
  sp = TAB ∨ sp = SPACE →
  check_ignore_match (src ++ COLON :: digits ++ COLON :: pat ++ sp :: path)
  = Some (src, digits, pat).
Proof.
  intros Hsrc Hdig Hdot Hds Hcol Hpath Hsp.
  apply Forall_app in Hdot as [Hd1 [Hd2 Hd3]%Forall_app].
  assert (is_ws sp = true ∧ dot sp = true ∧ sp ≠ COLON) as (Hs1 & Hs2 & Hs3).
  { destruct Hsp as [-> | ->]; done. }
  unfold check_ignore_match.
  rewrite (regex_scan_source [] src digits (pat ++ sp :: path) pat); try done.
  - rewrite elem_of_app, elem_of_cons. rewrite elem_of_app in Hcol.
    intros [?|[?|?]]; [tauto|congruence|tauto].
  - by apply (tail_scan_pattern [] pat sp path).
Qed.

(** For an answer [source:linenum:pattern<TAB>path] of git, where
    the pattern and the path contain no colon and the path no
    whitespace, the command reads the source, the line number and
    the pattern.  The source may contain colons and the pattern
    blanks. *)
Theorem check_ignore_reads (src digits pat path : jsstring) (sp : N) :
  src ≠ [] → digits ≠ [] →
  Forall (λ c, dot c = true) (src ++ pat ++ path) →
  Forall (λ d, is_digit d = true) digits →
  COLON ∉ pat ++ path →
  Forall (λ c, is_ws c = false) path →
  sp = TAB ∨ sp = SPACE →
  parse_check_ignore (src ++ COLON :: digits ++ COLON :: pat ++ sp :: path)
  = (src, Some digits, trim pat).
Proof.
  intros Hsrc Hdig Hdot Hds Hcol Hpath Hsp.
  unfold parse_check_ignore.
  by rewrite (check_ignore_match_answer src digits pat path sp).
Qed.

(** The answer for a rule with a blank, read from a file whose path
    has a colon. *)
Lemma check_ignore_reads_witness :
  parse_check_ignore (js "C:/repo/.gitignore:12:my dir/ " ++ [TAB] ++ js "my_dir/a.txt")
  = (js "C:/repo/.gitignore", Some (js "12"), js "my dir/").
Proof.
  apply (check_ignore_reads (js "C:/repo/.gitignore") (js "12") (js "my dir/ ")
           (js "my_dir/a.txt") TAB).
  - discriminate.
  - discriminate.
  - apply (bool_decide_unpack _). vm_compute. exact I.
  - apply (bool_decide_unpack _). vm_compute. exact I.
  - apply (bool_decide_unpack _). vm_compute. exact I.
  - apply (bool_decide_unpack _). vm_compute. exact I.
  - by left.
Defined.

Lemma digit_value_decimal c :
  is_digit c = true → digit_value 10 c = Some (Z.of_N c - 48)%Z.
Proof.
  unfold is_digit, digit_value. intros H. rewrite H.
  apply andb_true_iff in H as [H1%N.leb_le H2%N.leb_le].
  rewrite (proj2 (Z.ltb_lt _ _)); [done|lia].
Qed.

Lemma digits_value_decimal ds a :
  Forall (λ d, is_digit d = true) ds →
  digits_value 10 (Some a) ds
  = Some (fold_left (λ acc c, (acc * 10 + (Z.of_N c - 48))%Z) ds a).
Proof.
  intros H. revert a. induction H as [|d ds Hd _ IH]; intros a; [done|].
  simpl. rewrite (digit_value_decimal d Hd). simpl. apply IH.
Qed.

Lemma is_digit_not_ws c : is_digit c = true → is_ws c = false.
Proof.
  unfold is_digit, is_ws. intros [H1%N.leb_le H2%N.leb_le]%andb_true_iff.
  repeat (apply orb_false_iff; split);
    rewrite ?andb_false_iff, ?N.leb_gt, ?N.eqb_neq; lia.
Qed.

(** [parseInt] of a decimal numeral is its number. *)
Lemma parseInt_digits ds :
  ds ≠ [] → Forall (λ d, is_digit d = true) ds →
  parseInt (Some ds) = Some (decimal ds).
Proof.
  intros Hne H. destruct ds as [|d ds]; [done|]. clear Hne.
  apply Forall_cons in H as [Hd Hds].
  unfold parseInt.
  change (default _ (Some (d :: ds))) with (d :: ds). cbv zeta.
  rewrite (trimStart_keep d ds) by by apply is_digit_not_ws.
  assert (d ≠ 45 ∧ d ≠ 43) as [H1 H2].
  { unfold is_digit in Hd. apply andb_true_iff in Hd as [?%N.leb_le ?%N.leb_le].
    lia. }
  cbn [startsWith_char]. rewrite !(proj2 (N.eqb_neq _ _)) by done. cbn [orb].
  assert ((match d :: ds with
           | 48 :: x :: str' =>
               if (x =? 120) || (x =? 88) then (16%Z, str') else (10%Z, d :: ds)
           | _ => (10%Z, d :: ds)
           end) = (10%Z, d :: ds)) as ->.
  { destruct ds as [|x ds']; [by repeat case_match|].
    apply Forall_cons in Hds as [Hx _].
    assert ((x =? 120) || (x =? 88) = false) as Hx'.
    { unfold is_digit in Hx. apply andb_true_iff in Hx as [?%N.leb_le ?%N.leb_le].
      apply orb_false_iff. rewrite !N.eqb_neq. lia. }
    repeat case_match; simplify_eq; done. }
  cbn [fst snd digits_value]. rewrite (digit_value_decimal d Hd).
  rewrite digits_value_decimal by done. unfold decimal. simpl.
  f_equal. destruct (fold_left _ _ _); done.
Qed.

(** From the answer of git to the file: for an answer as above that
    names line [n] of a file of at least two lines, "Remove Rule"
    takes out the line with number [n], counted from one, and
    leaves the other lines in place. *)
Theorem check_ignore_removes_line
    (src digits pat path content : jsstring) (sp : N) :
  src ≠ [] → digits ≠ [] →
  Forall (λ c, dot c = true) (src ++ pat ++ path) →
  Forall (λ d, is_digit d = true) digits →
  COLON ∉ pat ++ path →
  Forall (λ c, is_ws c = false) path →
  sp = TAB ∨ sp = SPACE →
  (1 ≤ decimal digits ≤ Z.of_nat (length (split_lines content)))%Z →
  (2 ≤ length (split_lines content))%nat →
  ∃ c',
    checkIgnore_removeRule
      (src ++ COLON :: digits ++ COLON :: pat ++ sp :: path) content
    = Some c'
    ∧ map trim (split_lines c')
      = delete (Z.to_nat (decimal digits - 1)) (map trim (split_lines content)).
Proof.
  intros Hsrc Hdig Hdot Hds Hcol Hpath Hsp Hn Hlen.
  unfold checkIgnore_removeRule.
  unfold parse_check_ignore.
  rewrite (check_ignore_match_answer src digits pat path sp) by done.
  rewrite parseInt_digits by done. cbn [option_map].
  apply (removeRuleAt_in_range content (decimal digits - 1)); [lia|done].
Qed.

(** Git names line 2 of a file of four lines. *)
Lemma check_ignore_removes_line_witness :
  ∃ c',
    checkIgnore_removeRule (js ".gitignore:2:*.log" ++ [TAB] ++ js "test.log")
      (js "# Logs\r\n*.log\r\nbuild/\n")
    = Some c'
    ∧ map trim (split_lines c') = [js "# Logs"; js "build/"; []].
Proof.
  apply (check_ignore_removes_line (js ".gitignore") (js "2") (js "*.log")
           (js "test.log") (js "# Logs\r\n*.log\r\nbuild/\n") TAB).
  - discriminate.
  - discriminate.
  - apply (bool_decide_unpack _). vm_compute. exact I.
  - apply (bool_decide_unpack _). vm_compute. exact I.
  - apply (bool_decide_unpack _). vm_compute. exact I.
  - apply (bool_decide_unpack _). vm_compute. exact I.
  - by left.
  - replace (length (split_lines (js "# Logs\r\n*.log\r\nbuild/\n")))
      with 4%nat by reflexivity.
    replace (decimal (js "2")) with 2%Z by reflexivity. lia.
  - replace (length (split_lines (js "# Logs\r\n*.log\r\nbuild/\n")))
      with 4%nat by reflexivity. lia.
Defined.

(** * Properties of the list of templates *)

Lemma indexOf_last (pat stem : jsstring) :
  (∀ a b, stem ++ pat = a ++ pat ++ b → a = stem) →
  indexOf pat (stem ++ pat) = Some (length stem).
Proof.
  induction stem as [|c r IH]; intros H.
  - cbn [app]. destruct pat; cbn [indexOf]; by rewrite decide_True.
  - cbn [app indexOf]. rewrite decide_False.
    + rewrite IH; [done|]. intros a b E.
      specialize (H (c :: a) b). simpl in H. rewrite E in H.
      specialize (H eq_refl). by simplify_eq.
    + intros [b E]. by specialize (H [] b E).
Qed.

Lemma string_replace_last (pat stem : jsstring) :
  (∀ a b, stem ++ pat = a ++ pat ++ b → a = stem) →
  string_replace pat [] (stem ++ pat) = stem.
Proof.
  intros H. unfold string_replace. rewrite (indexOf_last pat stem H).
  rewrite take_app_length.
  rewrite drop_ge by (rewrite length_app; lia).
  by rewrite !app_nil_r.
Qed.

(** A stem without a dot has [.gitignore] nowhere but behind it. *)
Lemma dot_free_stem (stem : jsstring) :
  46 ∉ stem →
  ∀ a b, stem ++ GITIGNORE = a ++ GITIGNORE ++ b → a = stem.
Proof.
  induction stem as [|c r IH]; intros Hdot a b E.
  - apply (f_equal length) in E. rewrite !length_app in E. simpl in E.
    destruct a; [done|]. simpl in E. lia.
  - apply not_elem_of_cons in Hdot as [Hc Hr].
    destruct a as [|c' a].
    + vm_compute in E. simpl in E. by simplify_eq.
    + simpl in E. simplify_eq. f_equal. by apply (IH Hr a b).
Qed.

(** The quick pick offers the entries whose name ends with
    [.gitignore], and no others, each with its name and its address.
    The label of an entry is its name without the extension when the
    name has [.gitignore] nowhere but at its end. *)
Theorem template_labels (json : list Template) :
  (∀ it, it ∈ quick_pick_items (fetchGithubTemplates json) →
     ∃ stem, description it = stem ++ GITIGNORE
             ∧ mkTemplate (description it) (url it) ∈ json)
  ∧ (∀ stem u,
       (∀ a b, stem ++ GITIGNORE = a ++ GITIGNORE ++ b → a = stem) →
       mkTemplate (stem ++ GITIGNORE) u ∈ json →
       mkItem stem (stem ++ GITIGNORE) u
       ∈ quick_pick_items (fetchGithubTemplates json)).
Proof.
  split.
  - intros it (t & -> & Ht)%list_elem_of_fmap.
    apply list_elem_of_filter in Ht as [He Ht].
    apply bool_decide_eq_true in He as [stem E].
    exists stem. cbn [description url]. split; [done|]. by destruct t.
  - intros stem u H Ht. apply list_elem_of_fmap.
    exists (mkTemplate (stem ++ GITIGNORE) u). split.
    + cbn [name download_url]. by rewrite (string_replace_last _ _ H).
    + apply list_elem_of_filter. split; [|done].
      apply bool_decide_eq_true. by exists stem.
Qed.

(** GitHub lists a template and a file that is none. *)
Lemma template_labels_witness :
  mkItem (js "Node") (js "Node.gitignore") (js "https://x/Node.gitignore")
  ∈ quick_pick_items
      (fetchGithubTemplates
         [mkTemplate (js "README.md") (js "https://x/README.md");
          mkTemplate (js "Node.gitignore") (js "https://x/Node.gitignore")]).
Proof.
  apply (proj2 (template_labels _) (js "Node")).
  - apply dot_free_stem. apply (bool_decide_unpack _). vm_compute. exact I.
  - apply list_elem_of_further, list_elem_of_here.
Defined.
